(** * Audio ingestion and playback-state arbitration of metahuman-streams

    A shallow embedding of [basereal.py] (class [BaseReal]) and
    [baseasr.py] (class [BaseASR]).

    - Python [int] is [Z]; [//] and [%] are [Z.div] and [Z.modulo], which
      round towards minus infinity exactly like Python's.
    - A [dict] keyed by the integer audio type is a [gmap Z _].
    - A numpy array is the list of its rows along the first axis ([shape[0]]
      is its length); samples are only copied or created as zeros, never
      computed on, so the sample type is a parameter together with its zero.
    - A [queue.Queue] / [mp.Queue] is the FIFO list of its pending items.
    - Methods mutate [self]; here they take the object and return the
      updated one.  A raised exception is [Raise]; a blocking [get()] on a
      queue that nobody fills is [Hang]. *)

From Stdlib Require Import Ascii String.
From stdpp Require Import gmap strings list fin_maps sorting.

Open Scope Z_scope.

(** ** Exceptions and results *)

Inductive exn :=
  | KeyError (key : Z)
  | ValueError (msg : string)
  | ZeroDivisionError.

Inductive result (A : Type) :=
  | Ok (a : A)
  | Raise (e : exn)
  | Hang.
Arguments Ok {A} a.
Arguments Raise {A} e.
Arguments Hang {A}.

#[global] Instance result_ret : MRet result := fun _ a => Ok a.
#[global] Instance result_bind : MBind result := fun _ _ f r =>
  match r with
  | Ok a => f a
  | Raise e => Raise e
  | Hang => Hang
  end.

Definition is_Ok {A} (r : result A) : Prop := ∃ a, r = Ok a.
Definition raises {A} (r : result A) : Prop := ∃ e, r = Raise e.

(** ** Python and numpy primitives *)

(** [l[start:stop]] for a sequence: a negative bound counts from the end,
    and both bounds are clamped to [0, len l]. *)
Definition py_clamp (n i : Z) : Z :=
  if i <? 0 then Z.max (i + n) 0 else Z.min i n.

Definition py_slice {A} (l : list A) (start stop : Z) : list A :=
  let n := Z.of_nat (length l) in
  let lo := py_clamp n start in
  let hi := py_clamp n stop in
  take (Z.to_nat (hi - lo)) (drop (Z.to_nat lo) l).

(** [np.zeros(n, dtype=np.float32)] *)
Definition np_zeros {A} (zero : A) (n : Z) : result (list A) :=
  if n <? 0 then Raise (ValueError "negative dimensions are not allowed")
  else Ok (replicate (Z.to_nat n) zero).

(** [a // b] *)
Definition floordiv (a b : Z) : result Z :=
  if b =? 0 then Raise ZeroDivisionError else Ok (a / b).

(** [os.path.join(a, b)] for a relative [b]. *)
Fixpoint ends_with_slash (s : string) : bool :=
  match s with
  | EmptyString => false
  | String c EmptyString => bool_decide (c = "/"%char)
  | String _ s' => ends_with_slash s'
  end.

Definition os_path_join (a b : string) : string :=
  if decide (a = "") then b
  else if ends_with_slash a then a +:+ b
  else a +:+ "/" +:+ b.

(** [sorted(l, key=key)]: a stable sort, written as a stable insertion sort
    over the already computed keys. *)
Fixpoint insert_by_key {A} (k : Z) (x : A) (l : list (Z * A)) : list (Z * A) :=
  match l with
  | [] => [(k, x)]
  | (k', y) :: l' =>
      if k <=? k' then (k, x) :: l else (k', y) :: insert_by_key k x l'
  end.

Definition sort_by_key {A} (l : list (Z * A)) : list (Z * A) :=
  foldr (fun p acc => insert_by_key p.1 p.2 acc) [] l.

(** [ceil(a / b)] for a positive [b]. *)
Definition ceil_div (a b : Z) : Z := (a + b - 1) / b.

(** ** Configuration *)

(** One entry of [opt.customopt]: the keys the loader reads. *)
Record custom_item := {
  audiotype : Z;
  imgpath : string;
  audiopath : string;
}.

Record Opt := {
  fps : Z;
  batch_size : Z;
  l : Z;
  r : Z;
  tts : string;
  customopt : list custom_item;
}.

(** The engines of [ttsreal]; their constructors are outside this layer. *)
Inductive tts_engine := EdgeTTS | VoitsTTS | XTTS.

(** ** BaseReal *)

Record BaseReal (sample image : Type) := {
  opt : Opt;
  sample_rate : Z;
  chunk : Z;
  tts_of : tts_engine;
  curr_state : Z;
  custom_img_cycle : gmap Z (list image);
  custom_audio_cycle : gmap Z (list sample);
  custom_audio_index : gmap Z Z;
  custom_index : gmap Z Z;
  custom_opt : gmap Z custom_item;
}.
Arguments opt {sample image} _.
Arguments sample_rate {sample image} _.
Arguments chunk {sample image} _.
Arguments tts_of {sample image} _.
Arguments curr_state {sample image} _.
Arguments custom_img_cycle {sample image} _.
Arguments custom_audio_cycle {sample image} _.
Arguments custom_audio_index {sample image} _.
Arguments custom_index {sample image} _.
Arguments custom_opt {sample image} _.

Section BaseReal.
Context {sample image : Type}.
#[local] Abbreviation real := (BaseReal sample image).

(** Field assignments [self.f = v]. *)
Definition with_curr_state (v : Z) (self : real) : real :=
  {| opt := opt self; sample_rate := sample_rate self; chunk := chunk self;
     tts_of := tts_of self; curr_state := v;
     custom_img_cycle := custom_img_cycle self;
     custom_audio_cycle := custom_audio_cycle self;
     custom_audio_index := custom_audio_index self;
     custom_index := custom_index self;
     custom_opt := custom_opt self |}.

Definition with_custom_img_cycle (v : gmap Z (list image)) (self : real) : real :=
  {| opt := opt self; sample_rate := sample_rate self; chunk := chunk self;
     tts_of := tts_of self; curr_state := curr_state self;
     custom_img_cycle := v;
     custom_audio_cycle := custom_audio_cycle self;
     custom_audio_index := custom_audio_index self;
     custom_index := custom_index self;
     custom_opt := custom_opt self |}.

Definition with_custom_audio_cycle (v : gmap Z (list sample)) (self : real) : real :=
  {| opt := opt self; sample_rate := sample_rate self; chunk := chunk self;
     tts_of := tts_of self; curr_state := curr_state self;
     custom_img_cycle := custom_img_cycle self;
     custom_audio_cycle := v;
     custom_audio_index := custom_audio_index self;
     custom_index := custom_index self;
     custom_opt := custom_opt self |}.

Definition with_custom_audio_index (v : gmap Z Z) (self : real) : real :=
  {| opt := opt self; sample_rate := sample_rate self; chunk := chunk self;
     tts_of := tts_of self; curr_state := curr_state self;
     custom_img_cycle := custom_img_cycle self;
     custom_audio_cycle := custom_audio_cycle self;
     custom_audio_index := v;
     custom_index := custom_index self;
     custom_opt := custom_opt self |}.

Definition with_custom_index (v : gmap Z Z) (self : real) : real :=
  {| opt := opt self; sample_rate := sample_rate self; chunk := chunk self;
     tts_of := tts_of self; curr_state := curr_state self;
     custom_img_cycle := custom_img_cycle self;
     custom_audio_cycle := custom_audio_cycle self;
     custom_audio_index := custom_audio_index self;
     custom_index := v;
     custom_opt := custom_opt self |}.

Definition with_custom_opt (v : gmap Z custom_item) (self : real) : real :=
  {| opt := opt self; sample_rate := sample_rate self; chunk := chunk self;
     tts_of := tts_of self; curr_state := curr_state self;
     custom_img_cycle := custom_img_cycle self;
     custom_audio_cycle := custom_audio_cycle self;
     custom_audio_index := custom_audio_index self;
     custom_index := custom_index self;
     custom_opt := v |}.

(** [BaseReal.init_customindex] *)
Definition init_customindex (self : real) : real :=
  let self := with_curr_state 0 self in
  let self := with_custom_audio_index ((fun _ => 0) <$> custom_audio_index self) self in
  with_custom_index ((fun _ => 0) <$> custom_index self) self.

(** [BaseReal.mirror_index] *)
Definition mirror_index (size index : Z) : result Z :=
  turn ← floordiv index size;
  let res := index `mod` size in
  if turn `mod` 2 =? 0 then Ok res else Ok (size - res - 1).

(** [BaseReal.get_audio_stream] *)
Definition get_audio_stream (audiotype : Z) (self : real)
    : result (list sample * real) :=
  match custom_audio_index self !! audiotype with
  | None => Raise (KeyError audiotype)
  | Some idx =>
      match custom_audio_cycle self !! audiotype with
      | None => Raise (KeyError audiotype)
      | Some audio =>
          let stream := py_slice audio idx (idx + chunk self) in
          let self :=
            with_custom_audio_index
              (<[audiotype := idx + chunk self]> (custom_audio_index self)) self in
          if Z.of_nat (length audio) <=? idx + chunk self
          then Ok (stream, with_curr_state 1 self)
          else Ok (stream, self)
      end
  end.

(** [n] successive calls of [get_audio_stream audiotype], with the chunks
    they return in order. *)
Fixpoint get_audio_stream_n (n : nat) (audiotype : Z) (self : real)
    : result (list (list sample) * real) :=
  match n with
  | O => Ok ([], self)
  | S n =>
      '(stream, self) ← get_audio_stream audiotype self;
      '(rest, self) ← get_audio_stream_n n audiotype self;
      Ok (stream :: rest, self)
  end.

(** [BaseReal.set_curr_state] *)
Definition set_curr_state (audiotype : Z) (reinit : bool) (self : real) : real :=
  let self := with_curr_state audiotype self in
  if reinit then
    let self := with_custom_audio_index (<[audiotype := 0]> (custom_audio_index self)) self in
    with_custom_index (<[audiotype := 0]> (custom_index self)) self
  else self.

(** *** Loading the custom sources

    The file system and the decoders are outside this layer; the loader is
    written against what they return. *)

(** [glob.glob(pattern)]: the matching paths, none for a missing directory. *)
Variable glob_glob : string → list string.
(** [int(os.path.splitext(os.path.basename(x))[0])]; [None] when [int]
    raises [ValueError]. *)
Variable file_number : string → option Z.
(** [cv2.imread(path)]; [None] when the image cannot be read. *)
Variable cv2_imread : string → option image.
(** [sf.read(path, dtype='float32')]: the samples and the sample rate;
    [None] when it raises. *)
Variable sf_read : string → option (list sample * Z).

(** What the loader prints. *)
Inductive log_line :=
  | LogLoading (item : custom_item)
  | LogLoaded (n : nat) (id : Z)
  | LogError (id : Z).

(** [read_imgs]: unreadable images are skipped. *)
Definition read_imgs (img_list : list string) : list image :=
  omap cv2_imread img_list.

(** The body of the [for] loop of [__loadcustom], [try] and [except]
    included: the object as the iteration leaves it, and the lines printed. *)
Definition loadcustom_item (self : real) (item : custom_item) : real * list log_line :=
  let input_img_list :=
    glob_glob (os_path_join (imgpath item) "*.[jpJP][pnPN]*[gG]") in
  match mapM (fun x => (fun k => (k, x)) <$> file_number x) input_img_list with
  | None => (self, [LogLoading item; LogError (audiotype item)])
  | Some keyed =>
      let input_img_list := (sort_by_key keyed).*2 in
      let self :=
        with_custom_img_cycle
          (<[audiotype item := read_imgs input_img_list]> (custom_img_cycle self)) self in
      match sf_read (audiopath item) with
      | None => (self, [LogLoading item; LogError (audiotype item)])
      | Some (audio, _) =>
          let self :=
            with_custom_audio_cycle
              (<[audiotype item := audio]> (custom_audio_cycle self)) self in
          let self :=
            with_custom_audio_index
              (<[audiotype item := 0]> (custom_audio_index self)) self in
          let self :=
            with_custom_index (<[audiotype item := 0]> (custom_index self)) self in
          let self :=
            with_custom_opt (<[audiotype item := item]> (custom_opt self)) self in
          (self, [LogLoading item;
                  LogLoaded (length input_img_list) (audiotype item)])
      end
  end.

(** The [try] block of an item runs to its end: every image file name is a
    number and the audio file is read. *)
Definition item_loads (item : custom_item) : bool :=
  match mapM file_number
          (glob_glob (os_path_join (imgpath item) "*.[jpJP][pnPN]*[gG]")),
        sf_read (audiopath item) with
  | Some _, Some _ => true
  | _, _ => false
  end.

(** [BaseReal.__loadcustom] over a given list of specs. *)
Fixpoint loadcustom_items (items : list custom_item) (self : real)
    : real * list log_line :=
  match items with
  | [] => (self, [])
  | item :: items =>
      let '(self, out) := loadcustom_item self item in
      let '(self, out') := loadcustom_items items self in
      (self, out ++ out')
  end.

Definition loadcustom (self : real) : real * list log_line :=
  loadcustom_items (customopt (opt self)) self.

(** The TTS selection of [BaseReal.__init__]. *)
Definition select_tts (o : Opt) : result tts_engine :=
  if decide (tts o = "edgetts") then Ok EdgeTTS
  else if decide (tts o = "gpt-sovits") then Ok VoitsTTS
  else if decide (tts o = "xtts") then Ok XTTS
  else Raise (ValueError ("Unknown TTS type: " +:+ tts o +:+
                          ". Supported types: edgetts, gpt-sovits, xtts")).

(** [BaseReal.__init__] *)
Definition BaseReal_init (o : Opt) : result (real * list log_line) :=
  c ← floordiv 16000 (fps o);
  engine ← select_tts o;
  Ok (loadcustom
        {| opt := o; sample_rate := 16000; chunk := c; tts_of := engine;
           curr_state := 0; custom_img_cycle := ∅; custom_audio_cycle := ∅;
           custom_audio_index := ∅; custom_index := ∅; custom_opt := ∅ |}).

End BaseReal.

(** ** BaseASR *)

Record BaseASR (sample image feat : Type) := {
  asr_opt : Opt;
  parent : option (BaseReal sample image);
  asr_fps : Z;
  asr_sample_rate : Z;
  asr_chunk : Z;
  queue : list (list sample);
  output_queue : list (list sample * Z);
  asr_batch_size : Z;
  frames : list (list sample);
  stride_left_size : Z;
  stride_right_size : Z;
  feat_queue : list feat;
}.
Arguments asr_opt {sample image feat} _.
Arguments parent {sample image feat} _.
Arguments asr_fps {sample image feat} _.
Arguments asr_sample_rate {sample image feat} _.
Arguments asr_chunk {sample image feat} _.
Arguments queue {sample image feat} _.
Arguments output_queue {sample image feat} _.
Arguments asr_batch_size {sample image feat} _.
Arguments frames {sample image feat} _.
Arguments stride_left_size {sample image feat} _.
Arguments stride_right_size {sample image feat} _.
Arguments feat_queue {sample image feat} _.

(** The operations an owner of a [BaseASR] and of its parent performs on
    them, one after the other. *)
Inductive command (sample : Type) :=
  | PutAudioFrame (audio_chunk : list sample)
  | PauseTalk
  | GetAudioFrame
  | GetAudioOut
  | WarmUp
  | SetCurrState (audiotype : Z) (reinit : bool)
  | InitCustomindex.
Arguments PutAudioFrame {sample} _.
Arguments PauseTalk {sample}.
Arguments GetAudioFrame {sample}.
Arguments GetAudioOut {sample}.
Arguments WarmUp {sample}.
Arguments SetCurrState {sample} _ _.
Arguments InitCustomindex {sample}.

Section BaseASR.
Context {sample image feat : Type}.
(** The value of a silent sample, [0.0]. *)
Variable silence : sample.
#[local] Abbreviation real := (BaseReal sample image).
#[local] Abbreviation asr := (BaseASR sample image feat).

Definition with_parent (v : option real) (self : asr) : asr :=
  {| asr_opt := asr_opt self; parent := v; asr_fps := asr_fps self;
     asr_sample_rate := asr_sample_rate self; asr_chunk := asr_chunk self;
     queue := queue self; output_queue := output_queue self;
     asr_batch_size := asr_batch_size self; frames := frames self;
     stride_left_size := stride_left_size self;
     stride_right_size := stride_right_size self;
     feat_queue := feat_queue self |}.

Definition with_queue (v : list (list sample)) (self : asr) : asr :=
  {| asr_opt := asr_opt self; parent := parent self; asr_fps := asr_fps self;
     asr_sample_rate := asr_sample_rate self; asr_chunk := asr_chunk self;
     queue := v; output_queue := output_queue self;
     asr_batch_size := asr_batch_size self; frames := frames self;
     stride_left_size := stride_left_size self;
     stride_right_size := stride_right_size self;
     feat_queue := feat_queue self |}.

Definition with_output_queue (v : list (list sample * Z)) (self : asr) : asr :=
  {| asr_opt := asr_opt self; parent := parent self; asr_fps := asr_fps self;
     asr_sample_rate := asr_sample_rate self; asr_chunk := asr_chunk self;
     queue := queue self; output_queue := v;
     asr_batch_size := asr_batch_size self; frames := frames self;
     stride_left_size := stride_left_size self;
     stride_right_size := stride_right_size self;
     feat_queue := feat_queue self |}.

Definition with_frames (v : list (list sample)) (self : asr) : asr :=
  {| asr_opt := asr_opt self; parent := parent self; asr_fps := asr_fps self;
     asr_sample_rate := asr_sample_rate self; asr_chunk := asr_chunk self;
     queue := queue self; output_queue := output_queue self;
     asr_batch_size := asr_batch_size self; frames := v;
     stride_left_size := stride_left_size self;
     stride_right_size := stride_right_size self;
     feat_queue := feat_queue self |}.

(** [BaseASR.__init__] *)
Definition BaseASR_init (o : Opt) (p : option real) : result asr :=
  c ← floordiv 16000 (fps o);
  Ok {| asr_opt := o; parent := p; asr_fps := fps o; asr_sample_rate := 16000;
        asr_chunk := c; queue := []; output_queue := [];
        asr_batch_size := batch_size o; frames := [];
        stride_left_size := l o; stride_right_size := r o; feat_queue := [] |}.

(** [BaseASR.pause_talk] *)
Definition pause_talk (self : asr) : asr := with_queue [] self.

(** [BaseASR.put_audio_frame] *)
Definition put_audio_frame (audio_chunk : list sample) (self : asr) : asr :=
  with_queue (queue self ++ [audio_chunk]) self.

(** [BaseASR.get_audio_frame].  [queue.get(block=True, timeout=0.01)]
    succeeds when a chunk is pending and raises [queue.Empty] otherwise. *)
Definition get_audio_frame (self : asr) : result ((list sample * Z) * asr) :=
  match queue self with
  | frame :: rest => Ok ((frame, 0), with_queue rest self)
  | [] =>
      match parent self with
      | Some p =>
          if 1 <? curr_state p then
            '(frame, p') ← get_audio_stream (curr_state p) p;
            Ok ((frame, curr_state p'), with_parent (Some p') self)
          else
            frame ← np_zeros silence (asr_chunk self);
            Ok ((frame, 1), self)
      | None =>
          frame ← np_zeros silence (asr_chunk self);
          Ok ((frame, 1), self)
      end
  end.

(** [n] successive calls of [get_audio_frame], with the pairs they return
    in order. *)
Fixpoint get_audio_frame_n (n : nat) (self : asr)
    : result (list (list sample * Z) * asr) :=
  match n with
  | O => Ok ([], self)
  | S n =>
      '(x, self) ← get_audio_frame self;
      '(rest, self) ← get_audio_frame_n n self;
      Ok (x :: rest, self)
  end.

(** [BaseASR.get_audio_out]: [output_queue.get()] waits for an item. *)
Definition get_audio_out (self : asr) : result ((list sample * Z) * asr) :=
  match output_queue self with
  | x :: rest => Ok (x, with_output_queue rest self)
  | [] => Hang
  end.

(** The first loop of [warm_up], [n] iterations. *)
Fixpoint warm_up_fill (n : nat) (self : asr) : result asr :=
  match n with
  | O => Ok self
  | S n =>
      '((audio_frame, frame_type), self) ← get_audio_frame self;
      let self := with_frames (frames self ++ [audio_frame]) self in
      let self :=
        with_output_queue (output_queue self ++ [(audio_frame, frame_type)]) self in
      warm_up_fill n self
  end.

(** The second loop of [warm_up], [n] iterations. *)
Fixpoint warm_up_drain (n : nat) (self : asr) : result asr :=
  match n with
  | O => Ok self
  | S n =>
      '(_, self) ← get_audio_out self;
      warm_up_drain n self
  end.

(** [BaseASR.warm_up]; [range(k)] is empty for [k <= 0]. *)
Definition warm_up (self : asr) : result asr :=
  self ← warm_up_fill (Z.to_nat (stride_left_size self + stride_right_size self)) self;
  warm_up_drain (Z.to_nat (stride_left_size self)) self.

(** One operation; the two of [BaseReal] act on the parent. *)
Definition run_command (c : command sample) (self : asr) : result asr :=
  match c with
  | PutAudioFrame audio_chunk => Ok (put_audio_frame audio_chunk self)
  | PauseTalk => Ok (pause_talk self)
  | GetAudioFrame => '(_, self) ← get_audio_frame self; Ok self
  | GetAudioOut => '(_, self) ← get_audio_out self; Ok self
  | WarmUp => warm_up self
  | SetCurrState audiotype reinit =>
      Ok (with_parent (set_curr_state audiotype reinit <$> parent self) self)
  | InitCustomindex => Ok (with_parent (init_customindex <$> parent self) self)
  end.

Fixpoint run (cs : list (command sample)) (self : asr) : result asr :=
  match cs with
  | [] => Ok self
  | c :: cs => self ← run_command c self; run cs self
  end.

(** Every [set_curr_state] of the sequence restarts the source it selects. *)
Definition restarts (c : command sample) : bool :=
  match c with
  | SetCurrState _ reinit => reinit
  | _ => true
  end.

End BaseASR.

(** * Specification predicates *)

(** The index as the specification words it: [rem] if [turn] is even, else
    [size - rem - 1]. *)
Definition mirrorIndex_spec (size index : Z) : Z :=
  let turn := index / size in
  let rem := index `mod` size in
  if Z.even turn then rem else size - rem - 1.

Section Predicates.
Context {sample image feat : Type}.
#[local] Abbreviation real := (BaseReal sample image).
#[local] Abbreviation asr := (BaseASR sample image feat).
Implicit Types (self p : real) (s : asr) (id idx : Z) (audio : list sample).

(** The [k]-th chunk of a clip read from offset [i] in pieces of [c]. *)
Definition clip_chunk (audio : list sample) (i c k : nat) : list sample :=
  take c (drop (i + k * c) audio).

(** The custom source that is current, if any, is registered. *)
Definition current_registered p : Prop :=
  1 < curr_state p →
  is_Some (custom_audio_index p !! curr_state p) ∧
  is_Some (custom_audio_cycle p !! curr_state p).

(** [get_audio_frame] cannot raise: the chunk length is not negative and the
    parent, if there is one, plays a registered source. *)
Definition frame_source_ready s : Prop :=
  0 ≤ asr_chunk s ∧ ∀ p, parent s = Some p → current_registered p.

(** [s] with its frames buffer and its output channel replaced. *)
Definition with_buffers (f : list (list sample)) (o : list (list sample * Z)) s : asr :=
  with_output_queue o (with_frames f s).

(** What the specification asks of the cursors: none is beyond the end of
    its clip. *)
Definition cursors_within_clips p : Prop :=
  ∀ id idx audio,
    custom_audio_index p !! id = Some idx →
    custom_audio_cycle p !! id = Some audio →
    idx ≤ Z.of_nat (length audio).

(** What holds instead: a cursor is at most one chunk beyond the end of its
    clip, and the cursor of the source being played is inside the clip or at
    its start. *)
Definition cursor_inv p : Prop :=
  0 ≤ chunk p ∧
  ∀ id idx audio,
    custom_audio_index p !! id = Some idx →
    custom_audio_cycle p !! id = Some audio →
    idx ≤ Z.of_nat (length audio) + chunk p ∧
    (curr_state p = id → 1 < id → idx < Z.of_nat (length audio) ∨ idx = 0).

Definition asr_inv s : Prop := ∃ p, parent s = Some p ∧ cursor_inv p.

(** Source [id] is registered in all five dictionaries, cursors at zero. *)
Definition registered id self : Prop :=
  is_Some (custom_img_cycle self !! id) ∧
  is_Some (custom_audio_cycle self !! id) ∧
  custom_audio_index self !! id = Some 0 ∧
  custom_index self !! id = Some 0 ∧
  is_Some (custom_opt self !! id).

(** The audio, cursor and option entries of [id] are the same in both. *)
Definition same_entries id self self' : Prop :=
  custom_audio_cycle self' !! id = custom_audio_cycle self !! id ∧
  custom_audio_index self' !! id = custom_audio_index self !! id ∧
  custom_index self' !! id = custom_index self !! id ∧
  custom_opt self' !! id = custom_opt self !! id.

End Predicates.

Section Sessions.
Context {sample image feat : Type}.
#[local] Abbreviation real := (BaseReal sample image).
#[local] Abbreviation asr := (BaseASR sample image feat).

(** [put_audio_frame] called on each chunk of a list in turn. *)
Definition put_audio_frames (chunks : list (list sample)) (self : asr) : asr :=
  foldl (fun self audio_chunk => put_audio_frame audio_chunk self) self chunks.

(** The loaded clips and the configuration of the parent are the same. *)
Definition same_clips (p p' : real) : Prop :=
  opt p' = opt p ∧ sample_rate p' = sample_rate p ∧ chunk p' = chunk p ∧
  tts_of p' = tts_of p ∧
  custom_img_cycle p' = custom_img_cycle p ∧
  custom_audio_cycle p' = custom_audio_cycle p ∧
  custom_opt p' = custom_opt p.

(** The timing parameters are the same, and so are the parent's clips. *)
Definition same_setup (s s' : asr) : Prop :=
  asr_opt s' = asr_opt s ∧ asr_fps s' = asr_fps s ∧
  asr_sample_rate s' = asr_sample_rate s ∧ asr_chunk s' = asr_chunk s ∧
  asr_batch_size s' = asr_batch_size s ∧
  stride_left_size s' = stride_left_size s ∧
  stride_right_size s' = stride_right_size s ∧
  feat_queue s' = feat_queue s ∧
  match parent s, parent s' with
  | Some p, Some p' => same_clips p p'
  | None, None => True
  | _, _ => False
  end.

End Sessions.

Section LoadedSources.
Context {sample image : Type}.
Variable glob_glob : string → list string.
Variable file_number : string → option Z.
Variable sf_read : string → option (list sample * Z).

(** The dictionaries of a [BaseReal] agree with each other and with the
    specs [items]: the sources with audio are those with cursors and with
    options, each has images, every cursor is zero, and the options stored
    under an id are a spec of that id that loads and whose audio file holds
    the clip stored under the id. *)
Definition loaded_consistent (items : list custom_item) (p : BaseReal sample image) : Prop :=
  dom (custom_audio_index p) = dom (custom_audio_cycle p) ∧
  dom (custom_index p) = dom (custom_audio_cycle p) ∧
  dom (custom_opt p) = dom (custom_audio_cycle p) ∧
  dom (custom_audio_cycle p) ⊆ dom (custom_img_cycle p) ∧
  (∀ id idx, custom_audio_index p !! id = Some idx → idx = 0) ∧
  (∀ id idx, custom_index p !! id = Some idx → idx = 0) ∧
  (∀ id item, custom_opt p !! id = Some item →
     audiotype item = id ∧ item ∈ items ∧
     item_loads glob_glob file_number sf_read item = true ∧
     ∃ audio rate,
       sf_read (audiopath item) = Some (audio, rate) ∧
       custom_audio_cycle p !! id = Some audio).

End LoadedSources.

(** * Concrete data *)

(** Membership in a list written out. *)
Ltac in_list :=
  repeat first [apply list_elem_of_here | apply list_elem_of_further].

(** A clip of five samples played in chunks of two ([fps = 8000]). *)
Definition demo_opt : Opt :=
  {| fps := 8000; batch_size := 1; l := 2; r := 1; tts := "edgetts";
     customopt := [] |}.

Definition demo_real : BaseReal Z Z :=
  {| opt := demo_opt; sample_rate := 16000; chunk := 2; tts_of := EdgeTTS;
     curr_state := 2;
     custom_img_cycle := {[ 2 := [100; 101; 102] ]};
     custom_audio_cycle := {[ 2 := [11; 12; 13; 14; 15] ]};
     custom_audio_index := {[ 2 := 0 ]};
     custom_index := {[ 2 := 0 ]};
     custom_opt := {[ 2 := {| audiotype := 2; imgpath := "data/custom";
                              audiopath := "data/custom.wav" |} ]} |}.

Definition demo_asr : BaseASR Z Z Z :=
  {| asr_opt := demo_opt; parent := Some demo_real; asr_fps := 8000;
     asr_sample_rate := 16000; asr_chunk := 2; queue := []; output_queue := [];
     asr_batch_size := 1; frames := []; stride_left_size := 2;
     stride_right_size := 1; feat_queue := [] |}.

Definition demo_session : list (command Z) :=
  [SetCurrState 2 true; GetAudioFrame; GetAudioFrame; GetAudioFrame;
   GetAudioFrame; PutAudioFrame [1; 2]; GetAudioFrame; InitCustomindex].

(** Source 2 with an empty clip. *)
Definition demo_real_empty : BaseReal Z Z :=
  with_custom_audio_cycle {[ 2 := [] ]} demo_real.

(** Source 2 interrupted after two chunks, the state back at Inference. *)
Definition demo_real_paused : BaseReal Z Z :=
  with_curr_state 0 (with_custom_audio_index {[ 2 := 4 ]} demo_real).

(** The same frame source while nothing is played. *)
Definition demo_asr_idle : BaseASR Z Z Z :=
  with_parent (Some demo_real_paused) demo_asr.

(** A frame source with a negative right stride. *)
Definition demo_asr_short : BaseASR Z Z Z :=
  {| asr_opt := demo_opt; parent := Some demo_real; asr_fps := 8000;
     asr_sample_rate := 16000; asr_chunk := 2; queue := []; output_queue := [];
     asr_batch_size := 1; frames := []; stride_left_size := 2;
     stride_right_size := -1; feat_queue := [] |}.

(** Source 2 with a chunk length of zero. *)
Definition demo_real_zero : BaseReal Z Z :=
  {| opt := demo_opt; sample_rate := 16000; chunk := 0; tts_of := EdgeTTS;
     curr_state := 2;
     custom_img_cycle := custom_img_cycle demo_real;
     custom_audio_cycle := custom_audio_cycle demo_real;
     custom_audio_index := {[ 2 := 1 ]};
     custom_index := custom_index demo_real;
     custom_opt := custom_opt demo_real |}.

(** A file system with one directory of three images and two audio files. *)
Definition demo_glob (pattern : string) : list string :=
  if decide (pattern = "data/custom/*.[jpJP][pnPN]*[gG]")
  then ["data/custom/10.png"; "data/custom/2.png"; "data/custom/1.jpg"]
  else [].

Definition demo_file_number (path : string) : option Z :=
  if decide (path = "data/custom/10.png") then Some 10
  else if decide (path = "data/custom/2.png") then Some 2
  else if decide (path = "data/custom/1.jpg") then Some 1
  else None.

Definition demo_imread (path : string) : option Z :=
  if decide (path = "data/custom/10.png") then Some 110
  else if decide (path = "data/custom/2.png") then Some 102
  else if decide (path = "data/custom/1.jpg") then Some 101
  else None.

Definition demo_sf_read (path : string) : option (list Z * Z) :=
  if decide (path = "data/custom.wav") then Some ([11; 12; 13; 14; 15], 16000)
  else if decide (path = "data/other.wav") then Some ([21; 22; 23], 16000)
  else None.

Definition item_ok : custom_item :=
  {| audiotype := 2; imgpath := "data/custom"; audiopath := "data/custom.wav" |}.
Definition item_missing_dir : custom_item :=
  {| audiotype := 3; imgpath := "data/missing"; audiopath := "data/other.wav" |}.
Definition item_bad_audio : custom_item :=
  {| audiotype := 4; imgpath := "data/custom/"; audiopath := "data/broken.wav" |}.

Definition demo_load_opt : Opt :=
  {| fps := 50; batch_size := 1; l := 10; r := 10; tts := "edgetts";
     customopt := [item_missing_dir; item_bad_audio; item_ok] |}.

Definition demo_init : result (BaseReal Z Z * list log_line) :=
  BaseReal_init demo_glob demo_file_number demo_imread demo_sf_read demo_load_opt.

Definition demo_unloaded : BaseReal Z Z :=
  {| opt := demo_load_opt; sample_rate := 16000; chunk := 320;
     tts_of := EdgeTTS; curr_state := 0; custom_img_cycle := ∅;
     custom_audio_cycle := ∅; custom_audio_index := ∅; custom_index := ∅;
     custom_opt := ∅ |}.

Definition demo_bad_tts_opt : Opt :=
  {| fps := 50; batch_size := 1; l := 10; r := 10; tts := "festival";
     customopt := [item_ok] |}.

(** * Properties *)

(** ** Mirrored image indexing *)

Lemma mod2_eqb_even (z : Z) : (z `mod` 2 =? 0) = Z.even z.
Proof. rewrite Zmod_even. by destruct (Z.even z). Qed.

Lemma mirror_index_eval (size index : Z) :
  size ≠ 0 → mirror_index size index = Ok (mirrorIndex_spec size index).
Proof.
  intros Hsz. unfold mirror_index, floordiv, mirrorIndex_spec.
  destruct (Z.eqb_spec size 0) as [|_]; [done|]. simpl.
  rewrite mod2_eqb_even. by destruct (Z.even _).
Qed.

Lemma mirror_index_up (size k rem : Z) :
  0 < size → 0 ≤ rem < size →
  mirror_index size (2 * k * size + rem) = Ok rem.
Proof.
  intros Hsz Hrem. rewrite mirror_index_eval by lia. unfold mirrorIndex_spec.
  replace (2 * k * size + rem) with (rem + (2 * k) * size) by lia.
  rewrite Z_div_plus, Z_mod_plus by lia.
  rewrite Z.div_small, Z.mod_small by lia.
  by rewrite Z.add_0_l, Z.even_mul.
Qed.

Lemma mirror_index_down (size k rem : Z) :
  0 < size → 0 ≤ rem < size →
  mirror_index size ((2 * k + 1) * size + rem) = Ok (size - 1 - rem).
Proof.
  intros Hsz Hrem. rewrite mirror_index_eval by lia. unfold mirrorIndex_spec.
  replace ((2 * k + 1) * size + rem) with (rem + (2 * k + 1) * size) by lia.
  rewrite Z_div_plus, Z_mod_plus by lia.
  rewrite Z.div_small, Z.mod_small by lia.
  rewrite Z.add_0_l, Z.even_add, Z.even_mul. simpl. f_equal. lia.
Qed.

(** C3: for [index >= 0] and [size > 0], [mirror_index] returns [index % size]
    when [index // size] is even and [size - index % size - 1] otherwise; the
    result lies in [0, size); and along 0, 1, 2, ... it ramps up from 0 to
    [size - 1] on every even turn and back down from [size - 1] to 0 on every
    odd turn. *)
Theorem mirror_index_ping_pong (size index : Z) :
  0 ≤ index → 0 < size →
  (∃ v, mirror_index size index = Ok v ∧
        v = mirrorIndex_spec size index ∧
        v = (if (index / size) `mod` 2 =? 0
             then index `mod` size else size - index `mod` size - 1) ∧
        0 ≤ v < size) ∧
  (∀ k rem, 0 ≤ k → 0 ≤ rem < size →
     mirror_index size (2 * k * size + rem) = Ok rem ∧
     mirror_index size ((2 * k + 1) * size + rem) = Ok (size - 1 - rem)).
Proof.
  intros Hidx Hsz. split.
  - exists (mirrorIndex_spec size index).
    pose proof (Z.mod_pos_bound index size Hsz) as Hb.
    split; [apply mirror_index_eval; lia|]. split; [done|]. split.
    + unfold mirrorIndex_spec. by rewrite mod2_eqb_even.
    + unfold mirrorIndex_spec. destruct (Z.even _); lia.
  - intros k rem _ Hrem. split.
    + by apply mirror_index_up.
    + by apply mirror_index_down.
Qed.

Lemma mirror_index_ping_pong_witness :
  (∃ v, mirror_index 4 6 = Ok v ∧
        v = mirrorIndex_spec 4 6 ∧
        v = (if (6 / 4) `mod` 2 =? 0 then 6 `mod` 4 else 4 - 6 `mod` 4 - 1) ∧
        0 ≤ v < 4) ∧
  (∀ k rem, 0 ≤ k → 0 ≤ rem < 4 →
     mirror_index 4 (2 * k * 4 + rem) = Ok rem ∧
     mirror_index 4 ((2 * k + 1) * 4 + rem) = Ok (4 - 1 - rem)).
Proof. apply (mirror_index_ping_pong 4 6); lia. Defined.

Example mirror_index_ramp :
  (fun i => mirror_index 3 i) <$> [0; 1; 2; 3; 4; 5; 6; 7; 8; 9; 10; 11]
  = Ok <$> [0; 1; 2; 2; 1; 0; 0; 1; 2; 2; 1; 0].
Proof. reflexivity. Qed.

Section Properties.
Context {sample image feat : Type}.
Variable silence : sample.
#[local] Abbreviation real := (BaseReal sample image).
#[local] Abbreviation asr := (BaseASR sample image feat).
Implicit Types (self p : real) (s : asr) (id idx : Z) (audio : list sample).

(** ** Reset *)

Lemma fmap_zero_twice (m : gmap Z Z) :
  (fun _ : Z => 0) <$> ((fun _ : Z => 0) <$> m) = (fun _ : Z => 0) <$> m.
Proof. by rewrite <- map_fmap_compose. Qed.

Lemma lookup_fmap_zero (m : gmap Z Z) id idx :
  ((fun _ : Z => 0) <$> m) !! id = Some idx → idx = 0 ∧ is_Some (m !! id).
Proof.
  rewrite lookup_fmap. destruct (m !! id) as [v|]; simpl; [|done].
  intros [= <-]. eauto.
Qed.

(** C6: [init_customindex] is idempotent; after it the state is Inference
    ([curr_state = 0]), every audio and image cursor is zero, and the same
    sources are registered as before. *)
Theorem init_customindex_idempotent self :
  init_customindex (init_customindex self) = init_customindex self ∧
  curr_state (init_customindex self) = 0 ∧
  (∀ id idx, custom_audio_index (init_customindex self) !! id = Some idx → idx = 0) ∧
  (∀ id idx, custom_index (init_customindex self) !! id = Some idx → idx = 0) ∧
  dom (custom_audio_index (init_customindex self)) = dom (custom_audio_index self) ∧
  dom (custom_index (init_customindex self)) = dom (custom_index self).
Proof.
  split; [|split; [done|]].
  - unfold init_customindex, with_custom_index, with_custom_audio_index,
      with_curr_state; simpl. by rewrite !fmap_zero_twice.
  - simpl. repeat split.
    + intros id idx H. by apply lookup_fmap_zero in H as [-> _].
    + intros id idx H. by apply lookup_fmap_zero in H as [-> _].
    + apply dom_fmap_L.
    + apply dom_fmap_L.
Qed.

(** ** Interrupting speech *)

(** C9: [pause_talk] empties the inbound queue and leaves the playback state
    and cursors (all held by the parent), the frames buffer, the output
    channel and every other field as they were. *)
Theorem pause_talk_only_clears_queue s :
  queue (pause_talk s) = [] ∧
  parent (pause_talk s) = parent s ∧
  frames (pause_talk s) = frames s ∧
  output_queue (pause_talk s) = output_queue s ∧
  feat_queue (pause_talk s) = feat_queue s ∧
  pause_talk s = with_queue [] s ∧
  (∀ p, parent s = Some p →
     ∃ p', parent (pause_talk s) = Some p' ∧
       curr_state p' = curr_state p ∧
       custom_audio_index p' = custom_audio_index p ∧
       custom_index p' = custom_index p).
Proof.
  repeat split; try done. intros p Hp. exists p. by rewrite <- Hp.
Qed.

(** ** Switching the playback state *)

Lemma set_curr_state_no_reinit id self :
  set_curr_state id false self = with_curr_state id self.
Proof. done. Qed.

Lemma get_audio_stream_registered id self idx audio :
  custom_audio_index self !! id = Some idx →
  custom_audio_cycle self !! id = Some audio →
  ∃ self',
    get_audio_stream id self = Ok (py_slice audio idx (idx + chunk self), self') ∧
    custom_audio_index self' = <[id := idx + chunk self]> (custom_audio_index self) ∧
    custom_audio_cycle self' = custom_audio_cycle self ∧
    custom_index self' = custom_index self ∧
    chunk self' = chunk self ∧
    curr_state self' =
      (if Z.of_nat (length audio) <=? idx + chunk self then 1 else curr_state self).
Proof.
  intros Hi Ha. unfold get_audio_stream. rewrite Hi, Ha.
  destruct (_ <=? _); eexists; (split; [done|]); done.
Qed.

(** C10: [set_curr_state id False] only sets [curr_state] to [id]: no audio
    cursor and no image cursor moves, the one of [id] included, so the next
    retrieval from [id] continues at the saved offset. *)
Theorem set_curr_state_resume id self idx audio :
  custom_audio_index self !! id = Some idx →
  custom_audio_cycle self !! id = Some audio →
  let self1 := set_curr_state id false self in
  curr_state self1 = id ∧
  custom_audio_index self1 = custom_audio_index self ∧
  custom_index self1 = custom_index self ∧
  self1 = with_curr_state id self ∧
  ∃ self2,
    get_audio_stream id self1 = Ok (py_slice audio idx (idx + chunk self), self2) ∧
    custom_audio_index self2 !! id = Some (idx + chunk self).
Proof.
  intros Hi Ha self1. repeat split.
  destruct (get_audio_stream_registered id self1 idx audio Hi Ha)
    as (self2 & Hget & Hidx & _).
  exists self2. split; [done|]. rewrite Hidx. apply lookup_insert_eq.
Qed.

(** ** Custom chunk retrieval *)

Lemma py_slice_forward {A} (xs : list A) (i c : Z) :
  0 ≤ i → 0 ≤ c →
  py_slice xs i (i + c) = take (Z.to_nat c) (drop (Z.to_nat i) xs).
Proof.
  intros Hi Hc. unfold py_slice, py_clamp.
  destruct (Z.ltb_spec i 0); [lia|]. destruct (Z.ltb_spec (i + c) 0); [lia|].
  destruct (decide (i ≤ Z.of_nat (length xs))) as [Hle|Hgt].
  - rewrite (Z.min_l i) by lia.
    destruct (decide (i + c ≤ Z.of_nat (length xs))).
    + rewrite Z.min_l by lia. f_equal. lia.
    + rewrite Z.min_r by lia. rewrite !take_ge; [done| |];
        rewrite length_drop; lia.
  - rewrite !Z.min_r by lia. rewrite Z.sub_diag. simpl.
    rewrite !drop_ge by lia. by destruct (Z.to_nat c).
Qed.

Lemma get_audio_stream_n_eval (n : nat) id audio : ∀ self idx,
  0 ≤ idx → 0 < chunk self →
  custom_audio_index self !! id = Some idx →
  custom_audio_cycle self !! id = Some audio →
  ∃ self',
    get_audio_stream_n n id self =
      Ok (clip_chunk audio (Z.to_nat idx) (Z.to_nat (chunk self)) <$> seq 0 n, self') ∧
    custom_audio_index self' !! id = Some (idx + Z.of_nat n * chunk self) ∧
    custom_audio_cycle self' = custom_audio_cycle self ∧
    chunk self' = chunk self ∧
    curr_state self' =
      (if decide (n ≠ 0%nat ∧ Z.of_nat (length audio) ≤ idx + Z.of_nat n * chunk self)
       then 1 else curr_state self).
Proof.
  induction n as [|n IH]; intros self idx Hidx Hc Hi Ha.
  - exists self. simpl. repeat split; try done.
    rewrite Hi. f_equal. lia.
  - destruct (get_audio_stream_registered id self idx audio Hi Ha)
      as (self1 & Hget & Hidx1 & Hcyc1 & _ & Hc1 & Hst1).
    destruct (IH self1 (idx + chunk self)) as (self2 & Hn & Hidx2 & Hcyc2 & Hc2 & Hst2).
    { lia. } { lia. }
    { rewrite Hidx1. apply lookup_insert_eq. } { by rewrite Hcyc1. }
    exists self2. split; [|split; [|split; [|split]]].
    + cbn [get_audio_stream_n]. rewrite Hget. simpl. rewrite Hn. simpl.
      rewrite Hc1. f_equal. f_equal. cbn [seq fmap list_fmap]. f_equal.
      * unfold clip_chunk. rewrite py_slice_forward by lia. f_equal. f_equal. lia.
      * rewrite <- fmap_S_seq, <- list_fmap_compose.
        apply list_fmap_ext. intros _ k _. unfold clip_chunk; simpl.
        f_equal. f_equal. lia.
    + rewrite Hidx2, Hc1. f_equal. lia.
    + by rewrite Hcyc2.
    + by rewrite Hc2.
    + rewrite Hst2, Hst1, Hc1.
      destruct (Z.leb_spec (Z.of_nat (length audio)) (idx + chunk self)) as [Hend|Hmore];
        repeat case_decide; try done; exfalso.
      all: destruct (decide (n = 0%nat)) as [->|Hn0]; intuition lia.
Qed.

Lemma ceil_div_bounds (a b : Z) :
  0 < b → (ceil_div a b - 1) * b < a ≤ ceil_div a b * b.
Proof.
  intros Hb. unfold ceil_div.
  pose proof (Z.div_mod (a + b - 1) b ltac:(lia)) as Hdm.
  pose proof (Z.mod_pos_bound (a + b - 1) b Hb) as Hr.
  nia.
Qed.

Lemma concat_clip_chunks audio (c n : nat) : ∀ i : nat,
  concat (clip_chunk audio i c <$> seq 0 n) = take (n * c) (drop i audio).
Proof.
  induction n as [|n IH]; intros i; [done|].
  cbn [seq fmap list_fmap concat]. rewrite <- fmap_S_seq, <- list_fmap_compose.
  rewrite (list_fmap_ext _ (clip_chunk audio (i + c) c) (seq 0 n)); last first.
  { intros _ k _. unfold clip_chunk; simpl. f_equal. f_equal. lia. }
  rewrite IH. unfold clip_chunk. rewrite Nat.add_0_r.
  replace (drop (i + c) audio) with (drop c (drop i audio))
    by (rewrite drop_drop; f_equal).
  rewrite take_take_drop. f_equal.
Qed.

(** C1, as the code has it: for a registered source whose clip has [L > 0]
    samples, chunk length [c > 0] and audio cursor 0, the call number
    [ceil(L/c)] of [get_audio_stream] is the one that sets [curr_state] to
    Silence (1), no earlier call touches [curr_state]; the chunks returned
    are the clip cut into pieces of [c], and the final chunk is the rest of
    the clip as it is, [L - (ceil(L/c) - 1) * c] samples (between 1 and [c]),
    with nothing appended. *)
Theorem custom_source_exhaustion id self audio :
  0 < chunk self →
  (0 < length audio)%nat →
  custom_audio_index self !! id = Some 0 →
  custom_audio_cycle self !! id = Some audio →
  let c := chunk self in
  let L := Z.of_nat (length audio) in
  let n := Z.to_nat (ceil_div L c) in
  ∃ chunks self',
    get_audio_stream_n n id self = Ok (chunks, self') ∧
    length chunks = n ∧
    curr_state self' = 1 ∧
    (∀ k : nat, (k < n)%nat →
       ∃ chunks_k self_k,
         get_audio_stream_n k id self = Ok (chunks_k, self_k) ∧
         curr_state self_k = curr_state self) ∧
    concat chunks = audio ∧
    (∀ (k : nat) ch, chunks !! k = Some ch → (S k < n)%nat →
       Z.of_nat (length ch) = c) ∧
    ∃ final,
      last chunks = Some final ∧
      final = drop ((n - 1) * Z.to_nat c) audio ∧
      Z.of_nat (length final) = L - (Z.of_nat n - 1) * c ∧
      0 < Z.of_nat (length final) ≤ c.
Proof.
  intros Hc HL Hi Ha c L n.
  pose proof (ceil_div_bounds L c Hc) as Hceil.
  assert (Hn : Z.of_nat n = ceil_div L c).
  { subst n. rewrite Z2Nat.id; [done|]. unfold ceil_div.
    apply Z.div_pos; lia. }
  rewrite <- Hn in Hceil.
  assert (Hn1 : (1 ≤ n)%nat) by nia.
  destruct (get_audio_stream_n_eval n id audio self 0 ltac:(lia) Hc Hi Ha)
    as (self' & Hrun & _ & _ & _ & Hst).
  fold c in Hrun, Hst. simpl in Hrun.
  eexists _, self'. split; [exact Hrun|].
  split; [by rewrite length_fmap, length_seq|].
  split; [rewrite Hst; case_decide as Hd; [done|]; exfalso; apply Hd; fold L; lia|].
  split.
  { intros k Hk.
    destruct (get_audio_stream_n_eval k id audio self 0 ltac:(lia) Hc Hi Ha)
      as (self_k & Hrun_k & _ & _ & _ & Hst_k).
    eexists _, self_k. split; [exact Hrun_k|]. rewrite Hst_k.
    case_decide as Hd; [|done]. exfalso. destruct Hd as [_ Hd].
    fold c L in Hd. nia. }
  split.
  { rewrite concat_clip_chunks. simpl. apply take_ge. nia. }
  split.
  { intros k ch Hlk Hk. rewrite list_lookup_fmap in Hlk.
    rewrite lookup_seq_lt in Hlk by lia. simpl in Hlk. injection Hlk as <-.
    unfold clip_chunk. simpl. rewrite length_take, length_drop. nia. }
  exists (drop ((n - 1) * Z.to_nat c) audio).
  assert (Hfin : clip_chunk audio 0 (Z.to_nat c) (n - 1)
                 = drop ((n - 1) * Z.to_nat c) audio).
  { unfold clip_chunk. simpl. apply take_ge. rewrite length_drop. nia. }
  split.
  { rewrite last_lookup, length_fmap, length_seq, list_lookup_fmap.
    rewrite lookup_seq_lt by lia. simpl. f_equal.
    replace (Init.Nat.pred n) with (n - 1)%nat by lia. exact Hfin. }
  split; [done|]. rewrite length_drop. split; nia.
Qed.

End Properties.

Section FrameSource.
Context {sample image feat : Type}.
Variable silence : sample.
#[local] Abbreviation real := (BaseReal sample image).
#[local] Abbreviation asr := (BaseASR sample image feat).
Implicit Types (p : real) (s : asr) (id idx : Z) (audio : list sample).

(** ** Warm-up *)

Lemma get_audio_stream_current_registered p stream p' :
  get_audio_stream (curr_state p) p = Ok (stream, p') → current_registered p'.
Proof.
  unfold get_audio_stream. intros Hget Hcur.
  destruct (custom_audio_index p !! curr_state p) as [idx|] eqn:Hi; [|done].
  destruct (custom_audio_cycle p !! curr_state p) as [audio|] eqn:Ha; [|done].
  destruct (_ <=? _); injection Hget as <- <-; simpl in *; [lia|].
  rewrite lookup_insert_eq, Ha. eauto.
Qed.

Lemma get_audio_frame_ready s :
  frame_source_ready s →
  ∃ x s', get_audio_frame silence s = Ok (x, s') ∧ frame_source_ready s'.
Proof.
  intros [Hc Hp]. unfold get_audio_frame.
  destruct (queue s) as [|frame rest]; [|by eexists _, _].
  assert (Hz : ∃ z, np_zeros silence (asr_chunk s) = Ok z).
  { unfold np_zeros. destruct (Z.ltb_spec (asr_chunk s) 0); [lia|eauto]. }
  destruct Hz as [z Hz].
  destruct (parent s) as [p|] eqn:Hpar.
  - destruct (Z.ltb_spec 1 (curr_state p)) as [Hcur|Hcur].
    + destruct (Hp p eq_refl Hcur) as [[idx Hi] [audio Ha]].
      destruct (get_audio_stream_registered (curr_state p) p idx audio Hi Ha)
        as (p' & Hget & _).
      rewrite Hget. simpl. eexists _, _. split; [done|]. split; [done|].
      simpl. intros p0 [= <-]. by eapply get_audio_stream_current_registered.
    + rewrite Hz. simpl. eexists _, _. split; [done|]. split; [done|].
      by rewrite Hpar.
  - rewrite Hz. simpl. eexists _, _. split; [done|]. split; [done|].
    by rewrite Hpar.
Qed.

Lemma get_audio_frame_n_ready (n : nat) : ∀ s,
  frame_source_ready s →
  ∃ pulled s1,
    get_audio_frame_n silence n s = Ok (pulled, s1) ∧
    length pulled = n ∧ frame_source_ready s1.
Proof.
  induction n as [|n IH]; intros s Hs; [by exists [], s|].
  destruct (get_audio_frame_ready s Hs) as (x & s0 & Hget & Hs0).
  destruct (IH s0 Hs0) as (pulled & s1 & Hn & Hlen & Hs1).
  exists (x :: pulled), s1. simpl. rewrite Hget. simpl. rewrite Hn. simpl.
  by rewrite Hlen.
Qed.

Lemma get_audio_frame_with_buffers f o s x s' :
  get_audio_frame silence s = Ok (x, s') →
  get_audio_frame silence (with_buffers f o s) = Ok (x, with_buffers f o s') ∧
  frames s' = frames s ∧ output_queue s' = output_queue s ∧
  stride_left_size s' = stride_left_size s ∧
  stride_right_size s' = stride_right_size s.
Proof.
  unfold get_audio_frame. simpl.
  destruct (queue s) as [|frame rest]; [|by intros [= <- <-]].
  destruct (parent s) as [p|].
  - destruct (1 <? curr_state p).
    + destruct (get_audio_stream _ p) as [[stream p']| |]; simpl; [|done..].
      by intros [= <- <-].
    + destruct (np_zeros _ _); simpl; [|done..]. by intros [= <- <-].
  - destruct (np_zeros _ _); simpl; [|done..]. by intros [= <- <-].
Qed.

Lemma get_audio_frame_n_strides (n : nat) : ∀ s pulled s1,
  get_audio_frame_n silence n s = Ok (pulled, s1) →
  stride_left_size s1 = stride_left_size s ∧
  stride_right_size s1 = stride_right_size s.
Proof.
  induction n as [|n IH]; intros s pulled s1; simpl; [by intros [= <- <-]|].
  destruct (get_audio_frame silence s) as [[x s0]| |] eqn:Hget; simpl; [|done..].
  destruct (get_audio_frame_n silence n s0) as [[rest s2]| |] eqn:Hn; simpl; [|done..].
  intros [= <- <-].
  destruct (get_audio_frame_with_buffers [] [] s x s0 Hget) as (_ & _ & _ & <- & <-).
  by apply (IH s0 rest).
Qed.

Lemma with_buffers_id s : with_buffers (frames s) (output_queue s) s = s.
Proof. by destruct s. Qed.

Lemma warm_up_fill_eval (n : nat) : ∀ s pulled s1 f o,
  get_audio_frame_n silence n s = Ok (pulled, s1) →
  warm_up_fill silence n (with_buffers f o s)
  = Ok (with_buffers (f ++ pulled.*1) (o ++ pulled) s1).
Proof.
  induction n as [|n IH]; intros s pulled s1 f o; simpl.
  - intros [= <- <-]. simpl. by rewrite !app_nil_r.
  - destruct (get_audio_frame silence s) as [[x s0]| |] eqn:Hget; simpl; [|done..].
    destruct (get_audio_frame_n silence n s0) as [[rest s2]| |] eqn:Hn; simpl; [|done..].
    intros [= <- <-].
    destruct (get_audio_frame_with_buffers f o s x s0 Hget) as [-> _]. simpl.
    destruct x as [audio_frame frame_type].
    change (with_output_queue _ (with_frames _ (with_buffers f o s0)))
      with (with_buffers (f ++ [audio_frame]) (o ++ [(audio_frame, frame_type)]) s0).
    rewrite (IH s0 rest s2 _ _ Hn). simpl. by rewrite <- !app_assoc.
Qed.

Lemma warm_up_drain_eval (n : nat) : ∀ s,
  (n ≤ length (output_queue s))%nat →
  warm_up_drain n s = Ok (with_output_queue (drop n (output_queue s)) s).
Proof.
  induction n as [|n IH]; intros s Hlen; simpl.
  - by destruct s.
  - unfold get_audio_out. destruct (output_queue s) as [|x rest] eqn:Hq; simpl in *; [lia|].
    rewrite IH by (simpl; lia). by destruct s.
Qed.

(** C5: with both strides non-negative and a frame source that cannot raise,
    [warm_up] returns; it pulls exactly [l + r] pairs through
    [get_audio_frame], appends their chunks to [frames] and the pairs to the
    output channel in order, then takes exactly [l] pairs off the front of
    the channel.  On a fresh object ([frames] and the channel empty) this
    leaves [l + r] chunks in [frames] and exactly the last [r] pulled pairs in
    the channel. *)
Theorem warm_up_primes s :
  0 ≤ stride_left_size s →
  0 ≤ stride_right_size s →
  frame_source_ready s →
  ∃ pulled s1 s',
    get_audio_frame_n silence
      (Z.to_nat (stride_left_size s + stride_right_size s)) s = Ok (pulled, s1) ∧
    Z.of_nat (length pulled) = stride_left_size s + stride_right_size s ∧
    warm_up silence s = Ok s' ∧
    frames s' = frames s ++ pulled.*1 ∧
    output_queue s' =
      drop (Z.to_nat (stride_left_size s)) (output_queue s ++ pulled) ∧
    queue s' = queue s1 ∧ parent s' = parent s1 ∧
    (frames s = [] → output_queue s = [] →
       Z.of_nat (length (frames s')) = stride_left_size s + stride_right_size s ∧
       Z.of_nat (length (output_queue s')) = stride_right_size s ∧
       output_queue s' = drop (Z.to_nat (stride_left_size s)) pulled).
Proof.
  intros Hl Hr Hs.
  destruct (get_audio_frame_n_ready
              (Z.to_nat (stride_left_size s + stride_right_size s)) s Hs)
    as (pulled & s1 & Hn & Hlen & _).
  pose proof (warm_up_fill_eval _ s pulled s1 (frames s) (output_queue s) Hn) as Hfill.
  rewrite with_buffers_id in Hfill.
  exists pulled, s1. eexists. split; [exact Hn|]. split; [lia|].
  split.
  { unfold warm_up. rewrite Hfill. simpl.
    destruct (get_audio_frame_n_strides _ s pulled s1 Hn) as [-> _].
    apply warm_up_drain_eval. simpl. rewrite length_app. lia. }
  simpl. do 4 (split; [done|]). intros Hf Ho. rewrite Hf, Ho, !app_nil_l.
  rewrite length_fmap, length_drop. repeat split; lia.
Qed.

(** ** The frame source *)

(** The three ways [get_audio_frame] returns.  In the custom branch the tag
    is [curr_state] as [get_audio_stream] leaves it: the source's id as long
    as the moved cursor is inside the clip. *)
Lemma get_audio_frame_cases s :
  (∀ frame rest, queue s = frame :: rest →
     get_audio_frame silence s = Ok ((frame, 0), with_queue rest s)) ∧
  (queue s = [] → 0 ≤ asr_chunk s →
   (parent s = None ∨ ∃ p, parent s = Some p ∧ curr_state p ≤ 1) →
     get_audio_frame silence s
     = Ok ((replicate (Z.to_nat (asr_chunk s)) silence, 1), s)) ∧
  (∀ p idx audio,
     queue s = [] → parent s = Some p → 1 < curr_state p →
     custom_audio_index p !! curr_state p = Some idx →
     custom_audio_cycle p !! curr_state p = Some audio →
     ∃ p',
       get_audio_stream (curr_state p) p
         = Ok (py_slice audio idx (idx + chunk p), p') ∧
       get_audio_frame silence s
         = Ok ((py_slice audio idx (idx + chunk p), curr_state p'),
               with_parent (Some p') s) ∧
       curr_state p' =
         (if Z.of_nat (length audio) <=? idx + chunk p then 1 else curr_state p)).
Proof.
  unfold get_audio_frame. split; [|split].
  - by intros frame rest ->.
  - intros -> Hc Hp. unfold np_zeros.
    destruct (Z.ltb_spec (asr_chunk s) 0); [lia|].
    destruct Hp as [->|(p & -> & Hcur)]; [done|].
    by destruct (Z.ltb_spec 1 (curr_state p)); [lia|].
  - intros p idx audio -> -> Hcur Hi Ha.
    destruct (get_audio_stream_registered (curr_state p) p idx audio Hi Ha)
      as (p' & Hget & _ & _ & _ & _ & Hst).
    exists p'. rewrite Hget. destruct (Z.ltb_spec 1 (curr_state p)); [|lia].
    done.
Qed.

(** ** The audio cursor *)

Lemma cursor_inv_fresh p :
  0 ≤ chunk p →
  (∀ id idx, custom_audio_index p !! id = Some idx → idx = 0) →
  cursor_inv p.
Proof.
  intros Hc Hz. split; [done|]. intros id idx audio Hi _.
  rewrite (Hz id idx Hi). split; [lia|auto].
Qed.

Lemma cursor_inv_get_audio_stream p stream p' :
  cursor_inv p → 1 < curr_state p →
  get_audio_stream (curr_state p) p = Ok (stream, p') →
  cursor_inv p'.
Proof.
  intros [Hc Hinv] Hcur. unfold get_audio_stream.
  destruct (custom_audio_index p !! curr_state p) as [idx0|] eqn:Hi0; [|done].
  destruct (custom_audio_cycle p !! curr_state p) as [audio0|] eqn:Ha0; [|done].
  destruct (Hinv _ _ _ Hi0 Ha0) as [Hle0 Hin0]. specialize (Hin0 eq_refl Hcur).
  simpl.
  destruct (Z.leb_spec (Z.of_nat (length audio0)) (idx0 + chunk p)) as [Hend|Hmore];
    intros [= <- <-]; (split; [done|]); simpl; intros id idx audio Hi Ha.
  - destruct (decide (id = curr_state p)) as [->|Hne].
    + rewrite lookup_insert_eq in Hi. injection Hi as <-.
      rewrite Ha0 in Ha. injection Ha as <-. split; [lia|]. intros <-. lia.
    + rewrite lookup_insert_ne in Hi by done.
      destruct (Hinv _ _ _ Hi Ha) as [Hle _]. split; [done|]. intros <-. lia.
  - destruct (decide (id = curr_state p)) as [->|Hne].
    + rewrite lookup_insert_eq in Hi. injection Hi as <-.
      rewrite Ha0 in Ha. injection Ha as <-. split; [lia|]. intros _ _. lia.
    + rewrite lookup_insert_ne in Hi by done.
      destruct (Hinv _ _ _ Hi Ha) as [Hle _]. split; [done|]. by intros <-.
Qed.

Lemma cursor_inv_set_curr_state id p :
  cursor_inv p → cursor_inv (set_curr_state id true p).
Proof.
  intros [Hc Hinv]. split; [done|]. simpl. intros id' idx audio Hi Ha.
  destruct (decide (id' = id)) as [->|Hne].
  - rewrite lookup_insert_eq in Hi. injection Hi as <-. split; [lia|auto].
  - rewrite lookup_insert_ne in Hi by done.
    destruct (Hinv _ _ _ Hi Ha) as [Hle _]. split; [done|]. by intros <-.
Qed.

Lemma cursor_inv_init_customindex p :
  cursor_inv p → cursor_inv (init_customindex p).
Proof.
  intros [Hc _]. apply cursor_inv_fresh; [done|]. simpl.
  intros id idx Hi. rewrite lookup_fmap in Hi.
  destruct (custom_audio_index p !! id); simpl in Hi; [|done]. by injection Hi as <-.
Qed.

Lemma asr_inv_get_audio_frame s x s' :
  asr_inv s → get_audio_frame silence s = Ok (x, s') → asr_inv s'.
Proof.
  intros (p & Hp & Hinv). unfold get_audio_frame. rewrite Hp.
  destruct (queue s) as [|frame rest].
  - destruct (Z.ltb_spec 1 (curr_state p)) as [Hcur|Hcur].
    + destruct (get_audio_stream _ p) as [[stream p']| |] eqn:Hget; simpl; [|done..].
      intros [= <- <-]. exists p'. split; [done|].
      by eapply cursor_inv_get_audio_stream.
    + destruct (np_zeros _ _); simpl; [|done..]. intros [= <- <-]. by exists p.
  - intros [= <- <-]. by exists p.
Qed.

Lemma asr_inv_warm_up_fill (n : nat) : ∀ s s',
  asr_inv s → warm_up_fill silence n s = Ok s' → asr_inv s'.
Proof.
  induction n as [|n IH]; intros s s' Hs; simpl; [by intros [= <-]|].
  destruct (get_audio_frame silence s) as [[[audio_frame frame_type] s0]| |] eqn:Hget;
    simpl; [|done..].
  apply IH. apply (asr_inv_get_audio_frame s _ s0 Hs) in Hget. exact Hget.
Qed.

Lemma asr_inv_warm_up_drain (n : nat) : ∀ s s',
  asr_inv s → warm_up_drain n s = Ok s' → asr_inv s'.
Proof.
  induction n as [|n IH]; intros s s' Hs; simpl; [by intros [= <-]|].
  unfold get_audio_out. destruct (output_queue s); simpl; [done|]. by apply IH.
Qed.

Lemma asr_inv_run_command c s s' :
  restarts c = true → asr_inv s → run_command silence c s = Ok s' → asr_inv s'.
Proof.
  intros Hc Hs. destruct c as [audio_chunk| | | | |id reinit|]; simpl.
  - by intros [= <-].
  - by intros [= <-].
  - destruct (get_audio_frame silence s) as [[x s0]| |] eqn:Hget; simpl; [|done..].
    intros [= <-]. by eapply asr_inv_get_audio_frame.
  - unfold get_audio_out. destruct (output_queue s); simpl; [done|].
    by intros [= <-].
  - unfold warm_up.
    destruct (warm_up_fill _ _ s) as [s0| |] eqn:Hfill; simpl; [|done..].
    intros Hdrain. eapply asr_inv_warm_up_drain; [|exact Hdrain].
    by eapply asr_inv_warm_up_fill.
  - simpl in Hc. subst reinit. intros [= <-].
    destruct Hs as (p & Hp & Hinv). exists (set_curr_state id true p).
    simpl. rewrite Hp. split; [done|]. by apply cursor_inv_set_curr_state.
  - intros [= <-]. destruct Hs as (p & Hp & Hinv). exists (init_customindex p).
    simpl. rewrite Hp. split; [done|]. by apply cursor_inv_init_customindex.
Qed.

Lemma asr_inv_run cs : ∀ s s',
  forallb restarts cs = true → asr_inv s → run silence cs s = Ok s' → asr_inv s'.
Proof.
  induction cs as [|c cs IH]; intros s s' Hcs Hs; simpl; [by intros [= <-]|].
  simpl in Hcs. apply andb_prop in Hcs as [Hc Hcs].
  destruct (run_command silence c s) as [s0| |] eqn:Hrun; simpl; [|done..].
  apply IH; [done|]. by eapply asr_inv_run_command.
Qed.

(** C4, as the code has it: a cursor can pass the end of its clip, by at most
    one chunk.  From cursors at zero, after any sequence of operations in
    which every [set_curr_state] restarts its source, each registered
    source's audio cursor is at most the clip length plus one chunk; and from
    any state so reached a retrieval returns the slice at the cursor, moves
    the cursor forward by one chunk (it is never set back, so nothing is
    played twice) and sets [curr_state] to Silence exactly when the moved
    cursor is at or beyond the end of the clip. *)
Theorem audio_cursor_overshoot_bounded cs s p s' :
  0 ≤ chunk p →
  parent s = Some p →
  (∀ id idx, custom_audio_index p !! id = Some idx → idx = 0) →
  forallb restarts cs = true →
  run silence cs s = Ok s' →
  ∃ p',
    parent s' = Some p' ∧
    ∀ id idx audio,
      custom_audio_index p' !! id = Some idx →
      custom_audio_cycle p' !! id = Some audio →
      idx ≤ Z.of_nat (length audio) + chunk p' ∧
      ∃ p'',
        get_audio_stream id p' = Ok (py_slice audio idx (idx + chunk p'), p'') ∧
        custom_audio_index p'' !! id = Some (idx + chunk p') ∧
        custom_audio_cycle p'' !! id = Some audio ∧
        (Z.of_nat (length audio) ≤ idx + chunk p' → curr_state p'' = 1) ∧
        (idx + chunk p' < Z.of_nat (length audio) → curr_state p'' = curr_state p').
Proof.
  intros Hc Hp Hz Hcs Hrun.
  assert (Hs : asr_inv s) by (exists p; split; [done|by apply cursor_inv_fresh]).
  destruct (asr_inv_run cs s s' Hcs Hs Hrun) as (p' & Hp' & _ & Hinv).
  exists p'. split; [done|]. intros id idx audio Hi Ha.
  split; [by apply (Hinv id idx audio)|].
  destruct (get_audio_stream_registered id p' idx audio Hi Ha)
    as (p'' & Hget & Hidx & Hcyc & _ & _ & Hst).
  exists p''. split; [done|]. split; [rewrite Hidx; apply lookup_insert_eq|].
  split; [by rewrite Hcyc|]. rewrite Hst.
  destruct (Z.leb_spec (Z.of_nat (length audio)) (idx + chunk p')); split; (done || lia).
Qed.

End FrameSource.

Section Loader.
Context {sample image : Type}.
Variable glob_glob : string → list string.
Variable file_number : string → option Z.
Variable cv2_imread : string → option image.
Variable sf_read : string → option (list sample * Z).
#[local] Abbreviation real := (BaseReal sample image).
#[local] Abbreviation load_item := (loadcustom_item glob_glob file_number cv2_imread sf_read).
#[local] Abbreviation load_items := (loadcustom_items glob_glob file_number cv2_imread sf_read).
#[local] Abbreviation loads := (item_loads (sample:=sample) glob_glob file_number sf_read).
Implicit Types (self : real) (item : custom_item) (items : list custom_item) (id : Z).

(** ** Loading the custom sources *)

Lemma mapM_keyed_file_number (paths : list string) :
  is_Some (mapM (fun x => (fun k => (k, x)) <$> file_number x) paths)
  ↔ is_Some (mapM file_number paths).
Proof.
  rewrite !mapM_is_Some. apply Forall_iff. intros x. apply fmap_is_Some.
Qed.

(** The two ways an iteration ends. *)
Lemma loadcustom_item_cases self item :
  let id := audiotype item in
  let self' := (load_item self item).1 in
  (loads item = true ∧
   (∃ imgs audio,
      custom_img_cycle self' = <[id := imgs]> (custom_img_cycle self) ∧
      custom_audio_cycle self' = <[id := audio]> (custom_audio_cycle self)) ∧
   custom_audio_index self' = <[id := 0]> (custom_audio_index self) ∧
   custom_index self' = <[id := 0]> (custom_index self) ∧
   custom_opt self' = <[id := item]> (custom_opt self)) ∨
  (loads item = false ∧
   (load_item self item).2 = [LogLoading item; LogError id] ∧
   (custom_img_cycle self' = custom_img_cycle self ∨
    ∃ imgs, custom_img_cycle self' = <[id := imgs]> (custom_img_cycle self)) ∧
   custom_audio_cycle self' = custom_audio_cycle self ∧
   custom_audio_index self' = custom_audio_index self ∧
   custom_index self' = custom_index self ∧
   custom_opt self' = custom_opt self).
Proof.
  intros id self'. subst id self'. unfold item_loads, loadcustom_item.
  pose proof (mapM_keyed_file_number
    (glob_glob (os_path_join (imgpath item) "*.[jpJP][pnPN]*[gG]"))) as Hk.
  destruct (mapM file_number _) as [ks|] eqn:Hks.
  - destruct (mapM (fun x => _) _) as [keyed|] eqn:Hkeyed;
      [|destruct Hk as [_ Hk]; by destruct Hk].
    destruct (sf_read (audiopath item)) as [[audio rate]|]; simpl.
    + left. split; [done|]. split; [eauto|done].
    + right. repeat split; eauto.
  - destruct (mapM (fun x => _) _) as [keyed|] eqn:Hkeyed;
      [destruct Hk as [Hk _]; by destruct Hk|].
    right. repeat split; eauto.
Qed.

Lemma loadcustom_item_registers self item :
  loads item = true → registered (audiotype item) (load_item self item).1.
Proof.
  intros Hl. destruct (loadcustom_item_cases self item)
    as [(_ & (imgs & audio & Him & Hau) & Hai & Hci & Hop)|[Hf _]]; [|congruence].
  unfold registered. rewrite Him, Hau, Hai, Hci, Hop, !lookup_insert_eq. eauto 10.
Qed.

Lemma loadcustom_item_keeps id self item :
  registered id self → registered id (load_item self item).1.
Proof.
  intros (Him & Hau & Hai & Hci & Hop).
  destruct (loadcustom_item_cases self item)
    as [(_ & (imgs & audio & Him' & Hau') & Hai' & Hci' & Hop')
       |(_ & _ & Him' & Hau' & Hai' & Hci' & Hop')]; unfold registered.
  - rewrite Him', Hau', Hai', Hci', Hop'.
    destruct (decide (audiotype item = id)) as [->|Hne].
    + rewrite !lookup_insert_eq. eauto 10.
    + by rewrite !lookup_insert_ne.
  - rewrite Hau', Hai', Hci', Hop'. repeat split; try done.
    destruct Him' as [->|[imgs ->]]; [done|].
    destruct (decide (audiotype item = id)) as [->|Hne].
    + rewrite lookup_insert_eq. eauto.
    + by rewrite lookup_insert_ne.
Qed.

Lemma loadcustom_item_same_entries id self item :
  audiotype item ≠ id ∨ loads item = false →
  same_entries id self (load_item self item).1.
Proof.
  intros Hor.
  destruct (loadcustom_item_cases self item)
    as [(Hl & (imgs & audio & Him' & Hau') & Hai' & Hci' & Hop')
       |(_ & _ & Him' & Hau' & Hai' & Hci' & Hop')]; unfold same_entries.
  - destruct Hor as [Hne|Hf]; [|congruence].
    rewrite Hau', Hai', Hci', Hop'. by rewrite !lookup_insert_ne.
  - by rewrite Hau', Hai', Hci', Hop'.
Qed.

Lemma loadcustom_items_keeps id items : ∀ self,
  registered id self → registered id (load_items items self).1.
Proof.
  induction items as [|item items IH]; intros self Hr; simpl; [done|].
  destruct (load_item self item) as [self1 out1] eqn:H1.
  specialize (IH self1). destruct (load_items items self1) as [self2 out2].
  simpl in *. apply IH. pose proof (loadcustom_item_keeps id self item Hr) as Hk.
  by rewrite H1 in Hk.
Qed.

Lemma loadcustom_items_registers items : ∀ self item,
  item ∈ items → loads item = true →
  registered (audiotype item) (load_items items self).1.
Proof.
  induction items as [|item0 items IH]; intros self item Hin Hl;
    [by apply elem_of_nil in Hin|].
  simpl. destruct (load_item self item0) as [self1 out1] eqn:H1.
  pose proof (loadcustom_items_keeps (audiotype item) items self1) as Hk.
  specialize (IH self1 item).
  destruct (load_items items self1) as [self2 out2]. simpl in *.
  apply elem_of_cons in Hin as [->|Hin]; [|by apply IH].
  apply Hk. pose proof (loadcustom_item_registers self item0 Hl) as Hr.
  by rewrite H1 in Hr.
Qed.

Lemma loadcustom_items_same_entries id items : ∀ self,
  (∀ item, item ∈ items → audiotype item = id → loads item = false) →
  same_entries id self (load_items items self).1.
Proof.
  induction items as [|item0 items IH]; intros self Hall; [done|].
  simpl. destruct (load_item self item0) as [self1 out1] eqn:H1.
  specialize (IH self1).
  destruct (load_items items self1) as [self2 out2]. simpl in *.
  assert (H0 : same_entries id self self1).
  { pose proof (loadcustom_item_same_entries id self item0) as Hs.
    rewrite H1 in Hs. apply Hs.
    destruct (decide (audiotype item0 = id)) as [Heq|Hne]; [|by left].
    right. apply Hall; [apply list_elem_of_here|done]. }
  destruct IH as (Ha & Hb & Hc & Hd).
  { intros item Hin. apply Hall. by apply list_elem_of_further. }
  destruct H0 as (Ha0 & Hb0 & Hc0 & Hd0). unfold same_entries.
  by rewrite Ha, Hb, Hc, Hd.
Qed.

Lemma loadcustom_items_logs items : ∀ self item,
  item ∈ items → loads item = false →
  LogError (audiotype item) ∈ (load_items items self).2.
Proof.
  induction items as [|item0 items IH]; intros self item Hin Hf;
    [by apply elem_of_nil in Hin|].
  simpl. destruct (load_item self item0) as [self1 out1] eqn:H1.
  specialize (IH self1 item).
  destruct (load_items items self1) as [self2 out2]. simpl in *.
  apply elem_of_app. apply elem_of_cons in Hin as [->|Hin]; [left|right; by apply IH].
  destruct (loadcustom_item_cases self item0) as [[Hl _]|(_ & Hout & _)]; [congruence|].
  rewrite H1 in Hout. simpl in Hout. rewrite Hout. set_solver.
Qed.

(** C8, as the code has it.  [__loadcustom] returns for every list of specs
    (its loop catches every exception).  A spec loads when each of its
    image file names is a number and its audio file is read; a missing image
    directory is no failure, it yields an empty file list.  Every spec that
    loads ends up registered in all five dictionaries with both cursors at
    zero, whatever happens to the other specs.  A spec that does not load is
    logged as an error, and if no spec with its id loads, the audio, cursor
    and option dictionaries hold for that id what they held before the
    call. *)
Theorem loadcustom_isolates_failures self self' out :
  loadcustom glob_glob file_number cv2_imread sf_read self = (self', out) →
  ∀ item, item ∈ customopt (opt self) →
    (glob_glob (os_path_join (imgpath item) "*.[jpJP][pnPN]*[gG]") = [] →
     is_Some (sf_read (audiopath item)) → loads item = true) ∧
    (loads item = true → registered (audiotype item) self') ∧
    (loads item = false →
       LogError (audiotype item) ∈ out ∧
       ((∀ item', item' ∈ customopt (opt self) →
           audiotype item' = audiotype item → loads item' = false) →
        same_entries (audiotype item) self self')).
Proof.
  unfold loadcustom. intros Hload item Hin. split; [|split].
  - unfold item_loads. intros -> [a ->]. done.
  - intros Hl.
    pose proof (loadcustom_items_registers (customopt (opt self)) self item Hin Hl) as Hr.
    by rewrite Hload in Hr.
  - intros Hf. split.
    + pose proof (loadcustom_items_logs (customopt (opt self)) self item Hin Hf) as Hlog.
      by rewrite Hload in Hlog.
    + intros Hall.
      pose proof (loadcustom_items_same_entries (audiotype item)
                    (customopt (opt self)) self Hall) as Hs.
      by rewrite Hload in Hs.
Qed.

End Loader.

Section Misconfiguration.
Context {sample image feat : Type}.
Variable silence : sample.
Variable glob_glob : string → list string.
Variable file_number : string → option Z.
Variable cv2_imread : string → option image.
Variable sf_read : string → option (list sample * Z).
#[local] Abbreviation real := (BaseReal sample image).
#[local] Abbreviation asr := (BaseASR sample image feat).
#[local] Abbreviation init := (BaseReal_init glob_glob file_number cv2_imread sf_read).

(** ** Misconfiguration *)

(** C7, as the code has it.  Constructing a [BaseReal] with a TTS name
    other than the three supported ones raises (the [ValueError] that names
    the supported engines, unless [fps] is 0 and the chunk length division
    raises first).  [set_curr_state] checks nothing: any id becomes the
    current state.  An id above 1 without a registered clip fails at its
    first use instead: the next [get_audio_frame] that finds the queue empty
    raises [KeyError]. *)
Theorem misconfiguration_surfaces (o : Opt) (id : Z) (reinit : bool)
    (s : asr) (p : real) :
  tts o ≠ "edgetts" → tts o ≠ "gpt-sovits" → tts o ≠ "xtts" →
  parent s = Some p → queue s = [] → 1 < id →
  custom_audio_cycle p !! id = None →
  raises (init o) ∧
  (fps o ≠ 0 →
   init o = Raise (ValueError ("Unknown TTS type: " +:+ tts o +:+
                               ". Supported types: edgetts, gpt-sovits, xtts"))) ∧
  curr_state (set_curr_state id reinit p) = id ∧
  run_command silence (SetCurrState id reinit) s
    = Ok (with_parent (Some (set_curr_state id reinit p)) s) ∧
  get_audio_frame silence (with_parent (Some (set_curr_state id reinit p)) s)
    = Raise (KeyError id).
Proof.
  intros H1 H2 H3 Hp Hq Hid Hcyc.
  assert (Hsel : select_tts o
                 = Raise (ValueError ("Unknown TTS type: " +:+ tts o +:+
                                      ". Supported types: edgetts, gpt-sovits, xtts"))).
  { unfold select_tts. by repeat case_decide. }
  split; [|split; [|split; [|split]]].
  - unfold BaseReal_init, floordiv. destruct (fps o =? 0); simpl; [by eexists|].
    rewrite Hsel. by eexists.
  - intros Hfps. unfold BaseReal_init, floordiv.
    destruct (Z.eqb_spec (fps o) 0); [done|]. simpl. by rewrite Hsel.
  - by destruct reinit.
  - simpl. by rewrite Hp.
  - unfold get_audio_frame. simpl. rewrite Hq.
    replace (curr_state (set_curr_state id reinit p)) with id by (by destruct reinit).
    destruct (Z.ltb_spec 1 id); [|lia]. unfold get_audio_stream.
    replace (custom_audio_cycle (set_curr_state id reinit p))
      with (custom_audio_cycle p) by (by destruct reinit).
    rewrite Hcyc. by destruct (custom_audio_index _ !! id).
Qed.

End Misconfiguration.

(** * Instances on the concrete data *)

(** Against C1 as worded: the last chunk of a clip whose length is not a
    multiple of the chunk length is shorter than a chunk; five samples in
    chunks of two end with a chunk of one sample.  And for an empty clip
    [ceil(0/2)] is no call at all, which leaves the state where it was. *)
Lemma custom_source_final_chunk_short :
  (∃ chunks self' final,
     get_audio_stream_n (Z.to_nat (ceil_div 5 2)) 2 demo_real = Ok (chunks, self') ∧
     chunks = [[11; 12]; [13; 14]; [15]] ∧
     last chunks = Some final ∧
     Z.of_nat (length final) ≠ chunk demo_real) ∧
  (∃ self',
     get_audio_stream_n (Z.to_nat (ceil_div 0 2)) 2 demo_real_empty = Ok ([], self') ∧
     curr_state self' = 2).
Proof.
  split.
  - eexists _, _, _. split; [vm_compute; reflexivity|].
    split; [reflexivity|]. split; [reflexivity|]. done.
  - eexists. split; reflexivity.
Qed.

Lemma custom_source_exhaustion_witness :
  0 < chunk demo_real ∧
  ∃ chunks self',
    get_audio_stream_n 3 2 demo_real = Ok (chunks, self') ∧
    curr_state self' = 1 ∧ concat chunks = [11; 12; 13; 14; 15].
Proof.
  split; [done|].
  destruct (custom_source_exhaustion 2 demo_real [11; 12; 13; 14; 15])
    as (chunks & self' & Hrun & _ & Hst & _ & Hcat & _).
  - done.
  - simpl. lia.
  - reflexivity.
  - reflexivity.
  - by exists chunks, self'.
Defined.

(** Against C4 as worded: three pulls with an empty queue play the clip to
    its end; the cursor stops at 6, one beyond the five samples of the clip.
    Selecting the exhausted source again without [reinit] and pulling once
    more moves it to 8, more than a chunk beyond the end. *)
Lemma audio_cursor_passes_clip_end :
  (∃ s' p',
     run 0 [GetAudioFrame; GetAudioFrame; GetAudioFrame] demo_asr = Ok s' ∧
     parent s' = Some p' ∧
     custom_audio_index p' !! 2 = Some 6 ∧
     custom_audio_cycle p' !! 2 = Some [11; 12; 13; 14; 15] ∧
     ¬ cursors_within_clips p') ∧
  (∃ s' p',
     run 0 [GetAudioFrame; GetAudioFrame; GetAudioFrame;
            SetCurrState 2 false; GetAudioFrame] demo_asr = Ok s' ∧
     parent s' = Some p' ∧
     custom_audio_index p' !! 2 = Some 8 ∧
     custom_audio_cycle p' !! 2 = Some [11; 12; 13; 14; 15]).
Proof.
  split.
  - eexists _, _. split; [vm_compute; reflexivity|]. split; [reflexivity|].
    split; [reflexivity|]. split; [reflexivity|].
    intros H. specialize (H 2 6 [11; 12; 13; 14; 15] eq_refl eq_refl).
    simpl in H. lia.
  - eexists _, _. split; [vm_compute; reflexivity|]. by repeat split.
Qed.

Lemma audio_cursor_overshoot_bounded_witness :
  ∃ s' p',
    run 0 demo_session demo_asr = Ok s' ∧
    parent s' = Some p' ∧
    ∀ id idx audio,
      custom_audio_index p' !! id = Some idx →
      custom_audio_cycle p' !! id = Some audio →
      idx ≤ Z.of_nat (length audio) + chunk p'.
Proof.
  assert (Hrun : ∃ s', run 0 demo_session demo_asr = Ok s')
    by (eexists; vm_compute; reflexivity).
  destruct Hrun as [s' Hrun].
  destruct (audio_cursor_overshoot_bounded 0 demo_session demo_asr demo_real s')
    as (p' & Hp' & Hb).
  - simpl. lia.
  - reflexivity.
  - intros id idx Hi. simpl in Hi. by apply lookup_singleton_Some in Hi as [_ <-].
  - reflexivity.
  - exact Hrun.
  - exists s', p'. split; [done|]. split; [done|].
    intros id idx audio Hi Ha. by destruct (Hb id idx audio Hi Ha).
Defined.

(** C2, where the code departs from it: the chunk that ends a custom clip
    is returned with the Silence tag.  Of the three pairs pulled, with an
    empty queue, from the five-sample clip of source 2, the first two carry
    the tag 2 and the last carries the final sample of the clip and the
    tag 1, because the tag is read from [curr_state] after the retrieval has
    moved it to Silence. *)
Theorem get_audio_frame_tags_last_custom_chunk_silence :
  curr_state demo_real = 2 ∧
  ∃ s',
    get_audio_frame_n 0 3 demo_asr
    = Ok ([([11; 12], 2); ([13; 14], 2); ([15], 1)], s').
Proof. split; [reflexivity|]. eexists. vm_compute. reflexivity. Qed.

Lemma warm_up_primes_witness :
  ∃ s',
    warm_up 0 demo_asr = Ok s' ∧
    frames s' = [[11; 12]; [13; 14]; [15]] ∧
    output_queue s' = [([15], 1)].
Proof.
  destruct (warm_up_primes 0 demo_asr) as (pulled & s1 & s' & Hn & _ & Hw & Hf & Ho & _).
  - simpl. lia.
  - simpl. lia.
  - split; [simpl; lia|]. intros p [= <-] _. split; eexists; reflexivity.
  - exists s'. split; [done|].
    assert (Hp : pulled = [([11; 12], 2); ([13; 14], 2); ([15], 1)]).
    { vm_compute in Hn. by injection Hn as <- _. }
    rewrite Hf, Ho, Hp. done.
Defined.

Lemma set_curr_state_resume_witness :
  custom_audio_index demo_real_paused !! 2 = Some 4 ∧
  curr_state (set_curr_state 2 false demo_real_paused) = 2 ∧
  custom_audio_index (set_curr_state 2 false demo_real_paused)
    = custom_audio_index demo_real_paused ∧
  ∃ self2,
    get_audio_stream 2 (set_curr_state 2 false demo_real_paused)
      = Ok ([15], self2).
Proof.
  destruct (set_curr_state_resume 2 demo_real_paused 4 [11; 12; 13; 14; 15])
    as (Hst & Hidx & _ & _ & self2 & Hget & _).
  - reflexivity.
  - reflexivity.
  - split; [reflexivity|]. split; [exact Hst|]. split; [exact Hidx|].
    exists self2. exact Hget.
Defined.

(** Against C7 as worded: id 7 names no custom source, and
    [set_curr_state] makes it the current state all the same; with [reinit]
    it even creates cursors for it. *)
Lemma set_curr_state_accepts_unknown_id :
  custom_audio_cycle demo_real !! 7 = None ∧
  custom_audio_index demo_real !! 7 = None ∧
  (∃ s', run 0 [SetCurrState 7 false] demo_asr = Ok s' ∧
         curr_state <$> parent s' = Some 7) ∧
  curr_state (set_curr_state 7 true demo_real) = 7 ∧
  custom_audio_index (set_curr_state 7 true demo_real) !! 7 = Some 0.
Proof.
  split; [reflexivity|]. split; [reflexivity|].
  split; [eexists; split; [vm_compute|]; reflexivity|].
  split; reflexivity.
Qed.

(** Against C8 as worded: a spec whose image directory does not exist is
    registered, with no images; a spec whose audio cannot be read leaves its images registered. *)
Lemma loadcustom_registers_missing_directory :
  ∃ self' out,
    demo_init = Ok (self', out) ∧
    demo_glob (os_path_join (imgpath item_missing_dir) "*.[jpJP][pnPN]*[gG]") = [] ∧
    custom_img_cycle self' !! 3 = Some [] ∧
    custom_audio_cycle self' !! 3 = Some [21; 22; 23] ∧
    custom_audio_index self' !! 3 = Some 0 ∧
    custom_index self' !! 3 = Some 0 ∧
    custom_opt self' !! 3 = Some item_missing_dir ∧
    demo_sf_read (audiopath item_bad_audio) = None ∧
    LogError 4 ∈ out ∧
    custom_img_cycle self' !! 4 = Some [101; 102; 110] ∧
    custom_audio_cycle self' !! 4 = None.
Proof.
  eexists _, _. split; [vm_compute; reflexivity|].
  repeat (split; [reflexivity|]). split; [|split; reflexivity].
  in_list.
Qed.

Lemma loadcustom_isolates_failures_witness :
  ∃ self' out,
    loadcustom demo_glob demo_file_number demo_imread demo_sf_read demo_unloaded
      = (self', out) ∧
    registered 2 self' ∧
    LogError 4 ∈ out ∧
    custom_audio_cycle self' !! 4 = None ∧
    custom_audio_index self' !! 4 = None ∧
    custom_index self' !! 4 = None ∧
    custom_opt self' !! 4 = None.
Proof.
  destruct (loadcustom demo_glob demo_file_number demo_imread demo_sf_read
              demo_unloaded) as [self' out] eqn:Hload.
  exists self', out. split; [done|].
  pose proof (loadcustom_isolates_failures demo_glob demo_file_number demo_imread
                demo_sf_read demo_unloaded self' out Hload) as H.
  destruct (H item_ok) as (_ & Hreg & _); [simpl; in_list|].
  destruct (H item_bad_audio) as (_ & _ & Hfail); [simpl; in_list|].
  destruct (Hfail eq_refl) as [Hlog (Ha & Hb & Hc & Hd)].
  { intros item' Hin Hid. simpl in Hin.
    apply elem_of_cons in Hin as [->|Hin]; [discriminate Hid|].
    apply elem_of_cons in Hin as [->|Hin]; [reflexivity|].
    apply elem_of_cons in Hin as [->|Hin]; [discriminate Hid|].
    by apply elem_of_nil in Hin. }
  split; [apply Hreg; reflexivity|]. split; [exact Hlog|].
  split; [exact Ha|]. split; [exact Hb|]. split; [exact Hc|exact Hd].
Defined.

Lemma misconfiguration_surfaces_witness :
  BaseReal_init demo_glob demo_file_number demo_imread demo_sf_read demo_bad_tts_opt
    = Raise (ValueError
               "Unknown TTS type: festival. Supported types: edgetts, gpt-sovits, xtts") ∧
  run_command 0 (SetCurrState 7 false) demo_asr
    = Ok (with_parent (Some (set_curr_state 7 false demo_real)) demo_asr) ∧
  get_audio_frame 0 (with_parent (Some (set_curr_state 7 false demo_real)) demo_asr)
    = Raise (KeyError 7).
Proof.
  destruct (misconfiguration_surfaces (feat:=Z) 0 demo_glob demo_file_number
              demo_imread demo_sf_read demo_bad_tts_opt 7 false demo_asr demo_real)
    as (_ & Hinit & _ & Hset & Hget).
  - done.
  - done.
  - done.
  - reflexivity.
  - reflexivity.
  - lia.
  - reflexivity.
  - split; [|done]. apply Hinit. done.
Defined.

(** * Further properties of the code *)

(** ** Mirrored image indexing, on all integers *)

Lemma mirrorIndex_spec_cases (size index : Z) :
  0 < size →
  let q := index / size in
  let rem := index `mod` size in
  index = size * q + rem ∧ 0 ≤ rem < size ∧
  mirror_index size index = Ok (if Z.even q then rem else size - rem - 1).
Proof.
  intros Hsz q rem. split; [apply Z.div_mod; lia|].
  split; [apply Z.mod_pos_bound; lia|]. by rewrite mirror_index_eval by lia.
Qed.

Lemma mirror_index_at (size q rem : Z) :
  0 < size → 0 ≤ rem < size →
  mirror_index size (size * q + rem)
  = Ok (if Z.even q then rem else size - rem - 1).
Proof.
  intros Hsz Hrem. rewrite mirror_index_eval by lia. unfold mirrorIndex_spec.
  replace (size * q + rem) with (rem + q * size) by lia.
  rewrite Z_div_plus, Z_mod_plus by lia.
  by rewrite Z.div_small, Z.mod_small, Z.add_0_l by lia.
Qed.

(** X1: [mirror_index] has period [2 * size] in its index, for every size
    and every index, negative ones and the failing size 0 included. *)
Theorem mirror_index_period (size index : Z) :
  mirror_index size (index + 2 * size) = mirror_index size index.
Proof.
  destruct (decide (size = 0)) as [->|Hsz]; [by rewrite Z.add_0_r|].
  rewrite !mirror_index_eval by done. unfold mirrorIndex_spec.
  rewrite Z_div_plus_full, Z_mod_plus_full by done.
  replace (Z.even (index / size + 2)) with (Z.even (index / size)); [done|].
  rewrite Z.even_add. by destruct (Z.even _).
Qed.

(** X2: for a positive size consecutive indices give image positions inside
    [0, size) that differ by at most one (the loop has no jump), also for
    negative indices; the position repeats exactly where a turn ends, that
    is when [index + 1] is a multiple of [size]. *)
Theorem mirror_index_no_jump (size index : Z) :
  0 < size →
  ∃ v w,
    mirror_index size index = Ok v ∧
    mirror_index size (index + 1) = Ok w ∧
    0 ≤ v < size ∧ 0 ≤ w < size ∧
    Z.abs (w - v) ≤ 1 ∧
    (w = v ↔ (index + 1) `mod` size = 0).
Proof.
  intros Hsz.
  destruct (mirrorIndex_spec_cases size index Hsz) as (Hdm & Hrem & Hv).
  set (q := index / size) in *. set (rem := index `mod` size) in *.
  destruct (decide (rem + 1 < size)) as [Hin|Hend].
  - assert (Hw : mirror_index size (index + 1)
                 = Ok (if Z.even q then rem + 1 else size - (rem + 1) - 1)).
    { replace (index + 1) with (size * q + (rem + 1)) by lia.
      apply mirror_index_at; lia. }
    assert (Hm : (index + 1) `mod` size = rem + 1).
    { symmetry. apply (Z.mod_unique_pos _ _ q); lia. }
    eexists _, _. split; [exact Hv|]. split; [exact Hw|]. rewrite Hm.
    destruct (Z.even q); repeat split; lia.
  - assert (Hw : mirror_index size (index + 1)
                 = Ok (if Z.even (q + 1) then 0 else size - 0 - 1)).
    { replace (index + 1) with (size * (q + 1) + 0) by lia.
      apply mirror_index_at; lia. }
    assert (Hm : (index + 1) `mod` size = 0).
    { symmetry. apply (Z.mod_unique_pos _ _ (q + 1)); lia. }
    eexists _, _. split; [exact Hv|]. split; [exact Hw|]. rewrite Hm.
    rewrite Z.even_add. simpl. destruct (Z.even q); simpl; repeat split; lia.
Qed.

Lemma mirror_index_no_jump_witness :
  ∃ v w,
    mirror_index 3 (-1) = Ok v ∧ mirror_index 3 0 = Ok w ∧
    Z.abs (w - v) ≤ 1.
Proof.
  destruct (mirror_index_no_jump 3 (-1)) as (v & w & Hv & Hw & _ & _ & Habs & _).
  - lia.
  - by exists v, w.
Defined.

(** X3: within every double turn the positions read the same forwards and
    backwards: index [2 * size - 1 - index] gives the position of [index]. *)
Theorem mirror_index_palindrome (size index : Z) :
  0 < size →
  mirror_index size (2 * size - 1 - index) = mirror_index size index.
Proof.
  intros Hsz.
  destruct (mirrorIndex_spec_cases size index Hsz) as (Hdm & Hrem & ->).
  set (q := index / size) in *. set (rem := index `mod` size) in *.
  replace (2 * size - 1 - index) with (size * (1 - q) + (size - 1 - rem)) by lia.
  rewrite mirror_index_at by lia.
  replace (1 - q) with (1 + - q) by lia.
  rewrite Z.even_add, Z.even_opp. simpl. destruct (Z.even q); simpl; f_equal; lia.
Qed.

Lemma mirror_index_palindrome_witness :
  mirror_index 4 (2 * 4 - 1 - 6) = mirror_index 4 6.
Proof. apply (mirror_index_palindrome 4 6). lia. Defined.

Section MoreFrameSource.
Context {sample image feat : Type}.
Variable silence : sample.
#[local] Abbreviation real := (BaseReal sample image).
#[local] Abbreviation asr := (BaseASR sample image feat).
Implicit Types (self p : real) (s : asr) (id idx : Z) (audio : list sample).

(** ** Custom chunk retrieval: errors and bounds *)

Lemma get_audio_stream_failure id p :
  get_audio_stream id p ≠ Hang ∧
  ∀ e, get_audio_stream id p = Raise e ↔
       e = KeyError id ∧
       (custom_audio_index p !! id = None ∨ custom_audio_cycle p !! id = None).
Proof.
  unfold get_audio_stream.
  destruct (custom_audio_index p !! id) as [idx|];
    [destruct (custom_audio_cycle p !! id) as [audio|]|].
  - destruct (_ <=? _); (split; [done|]); intros e; split; [done| |done|];
      by intros [_ [?|?]].
  - split; [done|]. intros e. split; [intros [= <-]; auto|by intros [-> _]].
  - split; [done|]. intros e. split; [intros [= <-]; auto|by intros [-> _]].
Qed.

(** X4: [get_audio_stream] never blocks, and it raises exactly when the id
    has no audio cursor or no clip; the exception is then [KeyError] for
    that id. *)
Theorem get_audio_stream_raises_iff id p :
  get_audio_stream id p ≠ Hang ∧
  ∀ e, get_audio_stream id p = Raise e ↔
       e = KeyError id ∧
       (custom_audio_index p !! id = None ∨ custom_audio_cycle p !! id = None).
Proof. exact (get_audio_stream_failure id p). Qed.

(** X5: with a cursor and a chunk length that are not negative, the chunk
    returned is the piece of the clip from the cursor on, cut at the end of
    the clip: its length is [min chunk (max 0 (L - cursor))], and it is
    empty once the cursor is at or beyond the end. *)
Theorem get_audio_stream_chunk_length id p idx audio stream p' :
  custom_audio_index p !! id = Some idx →
  custom_audio_cycle p !! id = Some audio →
  0 ≤ idx → 0 ≤ chunk p →
  get_audio_stream id p = Ok (stream, p') →
  stream = take (Z.to_nat (chunk p)) (drop (Z.to_nat idx) audio) ∧
  Z.of_nat (length stream)
    = Z.min (chunk p) (Z.max 0 (Z.of_nat (length audio) - idx)) ∧
  (Z.of_nat (length audio) ≤ idx → stream = []).
Proof.
  intros Hi Ha Hidx Hc Hget.
  destruct (get_audio_stream_registered id p idx audio Hi Ha) as (p0 & Hget0 & _).
  rewrite Hget0 in Hget. injection Hget as <- <-.
  rewrite py_slice_forward by done. split; [done|]. split.
  - rewrite length_take, length_drop. lia.
  - intros Hend. rewrite drop_ge by lia. by destruct (Z.to_nat (chunk p)).
Qed.

(** ** The frame source: tags, failures and what a pull leaves alone *)

Lemma get_audio_stream_tag p stream p' :
  1 < curr_state p → get_audio_stream (curr_state p) p = Ok (stream, p') →
  curr_state p' = 1 ∨ curr_state p' = curr_state p.
Proof.
  unfold get_audio_stream. intros Hcur.
  destruct (custom_audio_index p !! curr_state p); [|done].
  destruct (custom_audio_cycle p !! curr_state p); [|done].
  destruct (_ <=? _); intros [= <- <-]; auto.
Qed.

Lemma get_audio_frame_tag s frame tag s' :
  get_audio_frame silence s = Ok ((frame, tag), s') →
  (tag = 0 ↔ queue s ≠ []) ∧
  (queue s ≠ [] → queue s = frame :: queue s' ∧ parent s' = parent s) ∧
  (queue s = [] → 1 ≤ tag ∧ queue s' = []).
Proof.
  unfold get_audio_frame. destruct (queue s) as [|x rest] eqn:Hq.
  - intros Hget. cut (1 ≤ tag ∧ queue s' = []).
    { intros [Ht Hq']. split; [split; [lia|done]|]. split; [done|auto]. }
    assert (Hz : ∀ r : result (list sample),
        (r ≫= λ frame0, Ok (frame0, 1, s)) = Ok (frame, tag, s') →
        1 ≤ tag ∧ queue s' = []).
    { intros [z| |]; simpl; [|done..]. intros [= _ <- <-]. split; [lia|done]. }
    destruct (parent s) as [p|]; [|by apply Hz in Hget].
    destruct (Z.ltb_spec 1 (curr_state p)) as [Hcur|Hcur]; [|by apply Hz in Hget].
    destruct (get_audio_stream _ p) as [[stream p']| |] eqn:Hstream;
      simpl in Hget; [|done..].
    injection Hget as <- <- <-. split; [|done].
    destruct (get_audio_stream_tag p stream p' Hcur Hstream); lia.
  - intros [= <- <- <-]. simpl. split; [done|]. split; [done|]. done.
Qed.

(** X6: the tag of a returned pair is 0 exactly when the chunk was taken
    from the inbound queue, and then it is the oldest queued chunk; a chunk
    produced by the fallback (custom clip or silence) never carries the
    Inference tag and leaves the queue empty. *)
Theorem get_audio_frame_tag_zero_iff_queued s frame tag s' :
  get_audio_frame silence s = Ok ((frame, tag), s') →
  (tag = 0 ↔ queue s ≠ []) ∧
  (queue s ≠ [] → queue s = frame :: queue s' ∧ parent s' = parent s) ∧
  (queue s = [] → 1 ≤ tag ∧ queue s' = []).
Proof. exact (get_audio_frame_tag s frame tag s'). Qed.

(** X7: [get_audio_frame] never blocks for good, and it returns exactly in
    these cases: a chunk is queued; or the parent plays a custom source that
    has a cursor and a clip; or no custom source is current and the chunk
    length is not negative. *)
Theorem get_audio_frame_returns_iff s :
  get_audio_frame silence s ≠ Hang ∧
  (is_Ok (get_audio_frame silence s) ↔
   queue s ≠ [] ∨
   (∃ p, parent s = Some p ∧ 1 < curr_state p ∧
         is_Some (custom_audio_index p !! curr_state p) ∧
         is_Some (custom_audio_cycle p !! curr_state p)) ∨
   (0 ≤ asr_chunk s ∧
    (parent s = None ∨ ∃ p, parent s = Some p ∧ curr_state p ≤ 1))).
Proof.
  unfold get_audio_frame, is_Ok.
  destruct (queue s) as [|x rest]; [|split; [done|]; split; eauto].
  assert (Hz : (np_zeros silence (asr_chunk s) ≫= λ frame, Ok (frame, 1, s)) ≠ Hang ∧
               ((∃ a, (np_zeros silence (asr_chunk s) ≫= λ frame, Ok (frame, 1, s)) = Ok a)
                ↔ 0 ≤ asr_chunk s)).
  { unfold np_zeros. destruct (Z.ltb_spec (asr_chunk s) 0); simpl.
    - split; [done|]. split; [by intros [? ?]|lia].
    - split; [done|]. split; [done|eauto]. }
  destruct Hz as [Hz1 Hz2].
  destruct (parent s) as [p|].
  - destruct (Z.ltb_spec 1 (curr_state p)) as [Hcur|Hcur].
    + destruct (get_audio_stream_failure (curr_state p) p) as [Hnh Hr].
      destruct (get_audio_stream (curr_state p) p) as [[stream p']|e|] eqn:Hget;
        simpl; [| |done].
      * split; [done|]. split; [|eauto]. intros _. right. left.
        exists p. split; [done|]. split; [done|].
        unfold get_audio_stream in Hget.
        destruct (custom_audio_index p !! curr_state p); [|done].
        destruct (custom_audio_cycle p !! curr_state p); [|done]. eauto.
      * split; [done|]. split; [by intros [? ?]|].
        destruct (proj1 (Hr e) eq_refl) as [_ Hnone].
        intros [?|[(p0 & [= <-] & _ & Hi & Ha)|(_ & [?|(p0 & [= <-] & ?)])]];
          try done; [|lia].
        destruct Hnone as [Hn|Hn]; rewrite Hn in *; by destruct Hi, Ha.
    + split; [done|]. rewrite Hz2. split.
      * intros Hc. right. right. split; [done|]. right. by exists p.
      * intros [?|[(p0 & [= <-] & ? & _)|[? _]]]; [done|lia|done].
  - split; [done|]. rewrite Hz2. split.
    + intros Hc. right. right. split; [done|]. by left.
    + intros [?|[(p0 & ? & _)|[? _]]]; done.
Qed.

Lemma get_audio_frame_effect s p x s' :
  parent s = Some p →
  get_audio_frame silence s = Ok (x, s') →
  frames s' = frames s ∧ output_queue s' = output_queue s ∧
  same_setup s s' ∧
  ∃ p',
    parent s' = Some p' ∧
    custom_index p' = custom_index p ∧
    (∀ id, id ≠ curr_state p →
       custom_audio_index p' !! id = custom_audio_index p !! id) ∧
    (curr_state p' = curr_state p ∨ curr_state p' = 1) ∧
    (queue s ≠ [] ∨ curr_state p ≤ 1 → p' = p).
Proof.
  intros Hp. unfold get_audio_frame, same_setup, same_clips. rewrite !Hp.
  destruct (queue s) as [|frame rest].
  - destruct (Z.ltb_spec 1 (curr_state p)) as [Hcur|Hcur].
    + unfold get_audio_stream.
      destruct (custom_audio_index p !! curr_state p) as [idx|]; [|done].
      destruct (custom_audio_cycle p !! curr_state p) as [audio|]; [|done].
      destruct (_ <=? _); simpl; intros [= <- <-]; simpl;
        (split; [done|]); (split; [done|]); (split; [done|]);
        eexists; (split; [done|]); simpl; (split; [done|]);
        (split; [intros id Hne; by rewrite lookup_insert_ne|]);
        (split; [auto|]); intros [?|?]; (done || lia).
    + destruct (np_zeros _ _); simpl; [|done..]. intros [= <- <-].
      rewrite Hp. split; [done|]. split; [done|]. split; [done|].
      exists p. repeat split; auto.
  - intros [= <- <-]. simpl. rewrite Hp. split; [done|]. split; [done|].
    split; [done|]. exists p. repeat split; auto.
Qed.

(** X8: a pull changes nothing of the parent but the audio cursor of the
    source that is current and [curr_state], which stays or becomes Silence;
    image cursors, the cursors of all other sources and the clips are as
    before, and so are the frames buffer and the output channel. *)
Theorem get_audio_frame_moves_only_current_cursor s p x s' :
  parent s = Some p →
  get_audio_frame silence s = Ok (x, s') →
  frames s' = frames s ∧ output_queue s' = output_queue s ∧
  same_setup s s' ∧
  ∃ p',
    parent s' = Some p' ∧
    custom_index p' = custom_index p ∧
    (∀ id, id ≠ curr_state p →
       custom_audio_index p' !! id = custom_audio_index p !! id) ∧
    (curr_state p' = curr_state p ∨ curr_state p' = 1) ∧
    (queue s ≠ [] ∨ curr_state p ≤ 1 → p' = p).
Proof. exact (get_audio_frame_effect s p x s'). Qed.

Lemma get_audio_frame_n_idle (n : nat) s :
  queue s = [] → 0 ≤ asr_chunk s →
  (parent s = None ∨ ∃ p, parent s = Some p ∧ curr_state p ≤ 1) →
  get_audio_frame_n silence n s
  = Ok (replicate n (replicate (Z.to_nat (asr_chunk s)) silence, 1), s).
Proof.
  intros Hq Hc Hp.
  destruct (get_audio_frame_cases silence s) as (_ & Hidle & _).
  specialize (Hidle Hq Hc Hp).
  induction n as [|n IH]; [done|]. simpl. rewrite Hidle. simpl. by rewrite IH.
Qed.

(** X9: while no custom source is current and nothing is queued, every pull
    returns a chunk of [chunk] zeros tagged Silence and changes nothing, for
    any number of pulls. *)
Theorem idle_frames_are_silence (n : nat) s :
  queue s = [] → 0 ≤ asr_chunk s →
  (parent s = None ∨ ∃ p, parent s = Some p ∧ curr_state p ≤ 1) →
  get_audio_frame_n silence n s
  = Ok (replicate n (replicate (Z.to_nat (asr_chunk s)) silence, 1), s).
Proof. exact (get_audio_frame_n_idle n s). Qed.

(** X10: selecting a source that has a clip with [reinit] and pulling with an
    empty queue returns the first chunk of the clip, whatever the cursors
    were before (and even if the source had none); the tag is the source's
    id when the clip is longer than a chunk, and the cursor is then one
    chunk in. *)
Theorem restart_plays_from_the_start s p id audio :
  parent s = Some p → queue s = [] → 1 < id → 0 ≤ chunk p →
  custom_audio_cycle p !! id = Some audio →
  ∃ p',
    get_audio_frame silence (with_parent (Some (set_curr_state id true p)) s)
    = Ok ((take (Z.to_nat (chunk p)) audio,
           if Z.of_nat (length audio) <=? chunk p then 1 else id),
          with_parent (Some p') s) ∧
    custom_audio_index p' !! id = Some (chunk p) ∧
    custom_index p' !! id = Some 0.
Proof.
  intros Hp Hq Hid Hc Ha.
  set (p1 := set_curr_state id true p).
  assert (Hi1 : custom_audio_index p1 !! id = Some 0) by apply lookup_insert_eq.
  destruct (get_audio_stream_registered id p1 0 audio Hi1 Ha)
    as (p' & Hget & Hidx & _ & Hci & _ & Hst).
  exists p'. unfold get_audio_frame. simpl. rewrite Hq.
  destruct (Z.ltb_spec 1 id); [|lia]. rewrite Hget. simpl. split.
  - rewrite Hst. rewrite py_slice_forward by (simpl; lia). simpl.
    rewrite drop_0, Z.add_0_l. by destruct (_ <=? _).
  - rewrite Hidx, Hci. simpl. by rewrite !lookup_insert_eq.
Qed.

(** ** The inbound queue *)

Lemma put_audio_frames_queue (chunks : list (list sample)) : ∀ s,
  put_audio_frames chunks s = with_queue (queue s ++ chunks) s.
Proof.
  induction chunks as [|c chunks IH]; intros s; simpl.
  - rewrite app_nil_r. by destruct s.
  - unfold put_audio_frames in *. simpl. rewrite IH. simpl.
    by rewrite <- app_assoc.
Qed.

Lemma get_audio_frame_n_drains (q : list (list sample)) : ∀ s,
  get_audio_frame_n silence (length q) (with_queue q s)
  = Ok ((fun c => (c, 0)) <$> q, with_queue [] s).
Proof.
  induction q as [|c q IH]; intros s; [done|].
  cbn [length get_audio_frame_n]. unfold get_audio_frame at 1.
  cbn [queue with_queue mbind result_bind].
  change (with_queue q (with_queue (c :: q) s)) with (with_queue q s).
  by rewrite IH.
Qed.

(** X11: the inbound queue is first in, first out: after chunks are put one
    by one, as many pulls as there are pending chunks return the chunks
    that were already pending and then the new ones, in the order they
    were put, each tagged Inference; the queue is empty afterwards and
    nothing else has changed. *)
Theorem queue_is_fifo (chunks : list (list sample)) s :
  get_audio_frame_n silence (length (queue s) + length chunks)
    (put_audio_frames chunks s)
  = Ok ((fun c => (c, 0)) <$> (queue s ++ chunks), with_queue [] s).
Proof.
  rewrite put_audio_frames_queue, <- length_app.
  apply get_audio_frame_n_drains.
Qed.

(** X12: after [pause_talk] no pull returns a chunk tagged Inference until
    something new is put: whatever number of pulls succeeds, every pair has
    a tag of at least 1 and the queue is still empty. *)
Theorem pause_talk_interrupts (n : nat) s pulled s' :
  get_audio_frame_n silence n (pause_talk s) = Ok (pulled, s') →
  Forall (fun x => 1 ≤ x.2) pulled ∧ queue s' = [] ∧ length pulled = n.
Proof.
  assert (H : ∀ s0, queue s0 = [] →
            get_audio_frame_n silence n s0 = Ok (pulled, s') →
            Forall (fun x => 1 ≤ x.2) pulled ∧ queue s' = [] ∧ length pulled = n);
    [|by apply H].
  revert pulled. induction n as [|n IH]; intros pulled s0 Hq; simpl.
  - by intros [= <- <-].
  - destruct (get_audio_frame silence s0) as [[[frame tag] s1]| |] eqn:Hget;
      simpl; [|done..].
    destruct (get_audio_frame_n silence n s1) as [[rest s2]| |] eqn:Hn;
      simpl; [|done..].
    intros [= <- <-].
    destruct (get_audio_frame_tag s0 frame tag s1 Hget)
      as (_ & _ & Hfb). destruct (Hfb Hq) as [Htag Hq1].
    destruct (IH rest s1 Hq1 Hn) as (Hall & Hq2 & Hlen).
    split; [by constructor|]. split; [done|]. simpl. by rewrite Hlen.
Qed.

(** ** What no operation changes *)

Lemma same_clips_refl p : same_clips p p.
Proof. by unfold same_clips. Qed.

Lemma same_clips_trans p1 p2 p3 :
  same_clips p1 p2 → same_clips p2 p3 → same_clips p1 p3.
Proof.
  unfold same_clips. intros (?&?&?&?&?&?&?) (?&?&?&?&?&?&?).
  repeat split; congruence.
Qed.

Lemma same_setup_refl s : same_setup s s.
Proof.
  unfold same_setup. do 8 (split; [done|]).
  destruct (parent s); [apply same_clips_refl|done].
Qed.

Lemma same_setup_trans s1 s2 s3 :
  same_setup s1 s2 → same_setup s2 s3 → same_setup s1 s3.
Proof.
  unfold same_setup.
  intros (?&?&?&?&?&?&?&?&H12) (?&?&?&?&?&?&?&?&H23).
  do 8 (split; [congruence|]).
  destruct (parent s1), (parent s2), (parent s3); try done.
  by eapply same_clips_trans.
Qed.

Lemma get_audio_frame_same_setup s x s' :
  get_audio_frame silence s = Ok (x, s') → same_setup s s'.
Proof.
  destruct (parent s) as [p|] eqn:Hp.
  - intros Hget.
    by destruct (get_audio_frame_effect s p x s' Hp Hget)
      as (_ & _ & ? & _).
  - unfold get_audio_frame, same_setup. rewrite !Hp.
    destruct (queue s).
    + destruct (np_zeros _ _); simpl; [|done..]. intros [= <- <-]. by rewrite Hp.
    + intros [= <- <-]. simpl. by rewrite Hp.
Qed.

Lemma with_buffers_same_setup f o s : same_setup s (with_buffers f o s).
Proof. exact (same_setup_refl s). Qed.

Lemma warm_up_fill_same_setup (n : nat) : ∀ s s',
  warm_up_fill silence n s = Ok s' → same_setup s s'.
Proof.
  induction n as [|n IH]; intros s s'; simpl.
  - intros [= <-]. apply same_setup_refl.
  - destruct (get_audio_frame silence s) as [[[audio_frame frame_type] s0]| |] eqn:Hget;
      simpl; [|done..].
    intros Hfill. apply IH in Hfill.
    eapply same_setup_trans; [by eapply get_audio_frame_same_setup|].
    eapply same_setup_trans; [|exact Hfill].
    apply (with_buffers_same_setup _ _ s0).
Qed.

Lemma warm_up_drain_same_setup (n : nat) : ∀ s s',
  warm_up_drain n s = Ok s' → same_setup s s'.
Proof.
  induction n as [|n IH]; intros s s'; simpl.
  - intros [= <-]. apply same_setup_refl.
  - unfold get_audio_out. destruct (output_queue s); simpl; [done|].
    intros Hd. apply IH in Hd. exact Hd.
Qed.

Lemma run_command_same_setup c s s' :
  run_command silence c s = Ok s' → same_setup s s'.
Proof.
  destruct c as [audio_chunk| | | | |id reinit|]; simpl.
  - intros [= <-]. exact (same_setup_refl s).
  - intros [= <-]. exact (same_setup_refl s).
  - destruct (get_audio_frame silence s) as [[x s0]| |] eqn:Hget; simpl; [|done..].
    intros [= <-]. by eapply get_audio_frame_same_setup.
  - unfold get_audio_out. destruct (output_queue s); simpl; [done|].
    intros [= <-]. exact (same_setup_refl s).
  - unfold warm_up.
    destruct (warm_up_fill _ _ s) as [s0| |] eqn:Hfill; simpl; [|done..].
    intros Hd. eapply same_setup_trans; [by eapply warm_up_fill_same_setup|].
    by eapply warm_up_drain_same_setup.
  - intros [= <-]. unfold same_setup. simpl. do 8 (split; [done|]).
    destruct (parent s); simpl; [|done]. by destruct reinit.
  - intros [= <-]. unfold same_setup. simpl. do 8 (split; [done|]).
    by destruct (parent s).
Qed.

(** X13: no sequence of operations changes the loaded clips (images, audio,
    options) or the timing parameters (chunk lengths, frame rate, strides,
    batch size); only queues, buffers, cursors and [curr_state] move. *)
Theorem run_keeps_clips_and_timing cs : ∀ s s',
  run silence cs s = Ok s' → same_setup s s'.
Proof.
  induction cs as [|c cs IH]; intros s s'; simpl.
  - intros [= <-]. apply same_setup_refl.
  - destruct (run_command silence c s) as [s0| |] eqn:Hc; simpl; [|done..].
    intros Hrun. eapply same_setup_trans; [by eapply run_command_same_setup|].
    by apply IH.
Qed.

(** ** Warm-up that cannot finish *)

Lemma warm_up_drain_hangs (n : nat) : ∀ s,
  (length (output_queue s) < n)%nat → warm_up_drain n s = Hang.
Proof.
  induction n as [|n IH]; intros s Hlen; [lia|]. simpl. unfold get_audio_out.
  destruct (output_queue s) as [|x rest] eqn:Hq; [done|]. simpl.
  apply IH. simpl in *. lia.
Qed.

(** X14: when the output channel cannot hold [stride_left_size] pairs after
    priming (a negative right stride, for instance), [warm_up] never
    returns: its second loop waits on the empty channel. *)
Theorem warm_up_blocks_on_short_channel s :
  frame_source_ready s →
  (length (output_queue s)
   + Z.to_nat (stride_left_size s + stride_right_size s)
   < Z.to_nat (stride_left_size s))%nat →
  warm_up silence s = Hang.
Proof.
  intros Hs Hshort.
  destruct (get_audio_frame_n_ready silence
              (Z.to_nat (stride_left_size s + stride_right_size s)) s Hs)
    as (pulled & s1 & Hn & Hlen & _).
  pose proof (warm_up_fill_eval silence _ s pulled s1 (frames s) (output_queue s) Hn)
    as Hfill.
  rewrite with_buffers_id in Hfill. unfold warm_up. rewrite Hfill. simpl.
  destruct (get_audio_frame_n_strides silence _ s pulled s1 Hn) as [-> _].
  apply warm_up_drain_hangs. simpl. rewrite length_app. lia.
Qed.

(** ** Switching and resetting *)

(** X15: a switch without [reinit] is forgotten by the next switch; a
    restart of a source absorbs any earlier switch to it; a switch leaves the
    cursors of every other source alone; and a restart gives the id audio
    and image cursors whether or not it names a loaded source. *)
Theorem set_curr_state_compose (a b : Z) (reinit : bool) p :
  set_curr_state a reinit (set_curr_state b false p) = set_curr_state a reinit p ∧
  set_curr_state a true (set_curr_state a reinit p) = set_curr_state a true p ∧
  (∀ id, id ≠ a →
     custom_audio_index (set_curr_state a reinit p) !! id = custom_audio_index p !! id ∧
     custom_index (set_curr_state a reinit p) !! id = custom_index p !! id) ∧
  dom (custom_audio_index (set_curr_state a true p)) = {[a]} ∪ dom (custom_audio_index p) ∧
  dom (custom_index (set_curr_state a true p)) = {[a]} ∪ dom (custom_index p).
Proof.
  split; [by destruct reinit|]. split.
  - destruct reinit; [|done]. unfold set_curr_state, with_custom_index,
      with_custom_audio_index, with_curr_state; simpl.
    by rewrite !insert_insert_eq.
  - split; [|split; simpl; apply dom_insert_L].
    intros id Hne. destruct reinit; simpl; [|done].
    by rewrite !lookup_insert_ne.
Qed.

(** X16: after [init_customindex] a loaded source can be played again in
    full: wherever its cursor was, [ceil(L/c)] retrievals return the whole
    clip, piece by piece, and end in Silence. *)
Theorem reset_allows_full_replay id p idx audio :
  0 < chunk p → (0 < length audio)%nat →
  custom_audio_index p !! id = Some idx →
  custom_audio_cycle p !! id = Some audio →
  ∃ chunks p',
    get_audio_stream_n
      (Z.to_nat (ceil_div (Z.of_nat (length audio)) (chunk p))) id
      (init_customindex p) = Ok (chunks, p') ∧
    concat chunks = audio ∧
    curr_state p' = 1 ∧
    custom_audio_cycle p' = custom_audio_cycle p.
Proof.
  intros Hc HL Hi Ha.
  set (n := Z.to_nat (ceil_div (Z.of_nat (length audio)) (chunk p))).
  pose proof (ceil_div_bounds (Z.of_nat (length audio)) (chunk p) Hc) as Hceil.
  assert (Hn : Z.of_nat n = ceil_div (Z.of_nat (length audio)) (chunk p)).
  { subst n. rewrite Z2Nat.id; [done|]. unfold ceil_div. apply Z.div_pos; lia. }
  rewrite <- Hn in Hceil.
  assert (Hi0 : custom_audio_index (init_customindex p) !! id = Some 0).
  { simpl. by rewrite lookup_fmap, Hi. }
  destruct (get_audio_stream_n_eval n id audio (init_customindex p) 0
              ltac:(lia) Hc Hi0 Ha) as (p' & Hrun & _ & Hcyc & _ & Hst).
  simpl in Hrun, Hst, Hcyc. eexists _, p'. split; [exact Hrun|].
  split; [|split; [|done]].
  - rewrite concat_clip_chunks. simpl. apply take_ge. nia.
  - rewrite Hst. case_decide as Hd; [done|]. exfalso. apply Hd. split; nia.
Qed.

(** ** Warm-up on queued input *)

Lemma get_audio_frame_n_prefix (pre rest : list (list sample)) : ∀ s,
  queue s = pre ++ rest →
  get_audio_frame_n silence (length pre) s
  = Ok ((fun c => (c, 0)) <$> pre, with_queue rest s).
Proof.
  induction pre as [|c pre IH]; intros s Hq; simpl.
  - simpl in Hq. rewrite <- Hq. by destruct s.
  - unfold get_audio_frame at 1. rewrite Hq. simpl.
    rewrite (IH (with_queue (pre ++ rest) s)) by done. done.
Qed.

(** X24: when at least [l + r] chunks are queued, [warm_up] takes the first
    [l + r] of them in order and nothing else: they are appended to
    [frames], their pairs (tagged Inference) go to the output channel, of
    which the first [l] pairs are then removed; the rest of the queue stays
    queued and the parent is not touched. *)
Theorem warm_up_takes_queued_chunks s (pre rest : list (list sample)) :
  0 ≤ stride_left_size s → 0 ≤ stride_right_size s →
  queue s = pre ++ rest →
  Z.of_nat (length pre) = stride_left_size s + stride_right_size s →
  ∃ s',
    warm_up silence s = Ok s' ∧
    frames s' = frames s ++ pre ∧
    output_queue s'
      = drop (Z.to_nat (stride_left_size s))
          (output_queue s ++ ((fun c => (c, 0)) <$> pre)) ∧
    queue s' = rest ∧
    parent s' = parent s.
Proof.
  intros Hl Hr Hq Hlen.
  pose proof (get_audio_frame_n_prefix pre rest s Hq) as Hn.
  pose proof (warm_up_fill_eval silence _ s _ _ (frames s) (output_queue s) Hn)
    as Hfill.
  rewrite with_buffers_id in Hfill.
  unfold warm_up.
  replace (Z.to_nat (stride_left_size s + stride_right_size s))
    with (length pre) by lia.
  rewrite Hfill. simpl. rewrite warm_up_drain_eval; last first.
  { simpl. rewrite length_app, length_fmap. lia. }
  eexists. split; [done|]. simpl. split; [|done].
  f_equal. clear. induction pre as [|c pre IH]; [done|]. csimpl. by f_equal.
Qed.

(** ** A chunk length of zero *)

Lemma py_slice_empty_range {A} (xs : list A) (i : Z) : py_slice xs i i = [].
Proof. unfold py_slice. by rewrite Z.sub_diag. Qed.

(** X22: with a chunk length of 0 (any [fps] above 16000) a custom source
    whose cursor is inside its clip never ends: every retrieval returns an
    empty chunk and leaves the object exactly as it was, cursor and
    [curr_state] included. *)
Theorem zero_chunk_never_advances (n : nat) id p idx audio :
  chunk p = 0 →
  custom_audio_index p !! id = Some idx →
  custom_audio_cycle p !! id = Some audio →
  idx < Z.of_nat (length audio) →
  get_audio_stream_n n id p = Ok (replicate n [], p).
Proof.
  intros Hc Hi Ha Hin.
  assert (Hone : get_audio_stream id p = Ok ([], p)).
  { unfold get_audio_stream. rewrite Hi, Ha. simpl. rewrite Hc, Z.add_0_r.
    destruct (Z.leb_spec (Z.of_nat (length audio)) idx); [lia|].
    rewrite py_slice_empty_range, insert_id by done. by destruct p. }
  induction n as [|n IH]; [done|]. simpl. rewrite Hone. simpl. by rewrite IH.
Qed.

End MoreFrameSource.

Lemma get_audio_frame_tag_zero_iff_queued_witness :
  ∃ s', get_audio_frame 0 (put_audio_frame [7; 8] demo_asr) = Ok (([7; 8], 0), s') ∧
        queue s' = [].
Proof.
  assert (H : ∃ s', get_audio_frame 0 (put_audio_frame [7; 8] demo_asr)
                    = Ok (([7; 8], 0), s')) by (eexists; reflexivity).
  destruct H as [s' H]. exists s'. split; [exact H|].
  destruct (get_audio_frame_tag_zero_iff_queued 0 _ _ _ _ H) as (_ & Hq & _).
  destruct Hq as [Hq _]; [done|]. simpl in Hq. by injection Hq as <-.
Defined.

Lemma get_audio_stream_chunk_length_witness :
  ∃ stream p',
    get_audio_stream 2 demo_real_paused = Ok (stream, p') ∧
    Z.of_nat (length stream) = 1.
Proof.
  assert (H : ∃ stream p', get_audio_stream 2 demo_real_paused = Ok (stream, p'))
    by (eexists _, _; reflexivity).
  destruct H as (stream & p' & H). exists stream, p'. split; [exact H|].
  destruct (get_audio_stream_chunk_length 2 demo_real_paused 4 [11; 12; 13; 14; 15]
              stream p') as (_ & Hlen & _).
  - reflexivity.
  - reflexivity.
  - lia.
  - simpl. lia.
  - exact H.
  - rewrite Hlen. reflexivity.
Defined.

Section MoreLoader.
Context {sample image : Type}.
Variable glob_glob : string → list string.
Variable file_number : string → option Z.
Variable cv2_imread : string → option image.
Variable sf_read : string → option (list sample * Z).
#[local] Abbreviation real := (BaseReal sample image).
#[local] Abbreviation load_item := (loadcustom_item glob_glob file_number cv2_imread sf_read).
#[local] Abbreviation load_items := (loadcustom_items glob_glob file_number cv2_imread sf_read).
#[local] Abbreviation loads := (item_loads (sample:=sample) glob_glob file_number sf_read).
#[local] Abbreviation init := (BaseReal_init glob_glob file_number cv2_imread sf_read).
#[local] Abbreviation img_pattern := ("*.[jpJP][pnPN]*[gG]"%string).
Implicit Types (self p : real) (item : custom_item) (items : list custom_item) (id : Z).

(** ** Reading images *)

(** X17: [read_imgs] keeps the images it can read, in the order of the
    paths, and skips the others: the result is never longer than the list of
    paths, as long exactly when every path is readable, made of the readable
    images only, and reading two lists one after the other is reading their
    concatenation. *)
Theorem read_imgs_skips_unreadable (img_list more : list string) :
  (length (read_imgs cv2_imread img_list) ≤ length img_list)%nat ∧
  (length (read_imgs cv2_imread img_list) = length img_list
   ↔ Forall (fun path => is_Some (cv2_imread path)) img_list) ∧
  (∀ img, img ∈ read_imgs cv2_imread img_list
          ↔ ∃ path, path ∈ img_list ∧ cv2_imread path = Some img) ∧
  read_imgs cv2_imread (img_list ++ more)
  = read_imgs cv2_imread img_list ++ read_imgs cv2_imread more.
Proof.
  unfold read_imgs.
  assert (Hle : ∀ xs : list string, (length (omap cv2_imread xs) ≤ length xs)%nat).
  { induction xs as [|x xs IH]; csimpl; [lia|].
    destruct (cv2_imread x); simpl; lia. }
  split; [apply Hle|]. split; [|split].
  - induction img_list as [|x xs IH]; csimpl; [by split|].
    specialize (Hle xs).
    rewrite Forall_cons. destruct (cv2_imread x) as [img|]; simpl.
    + rewrite <- IH. split; [intros [= ?]; eauto|intros [_ ->]; done].
    + split; [lia|]. by intros [[? ?] _].
  - intros img. apply list_elem_of_omap.
  - apply omap_app.
Qed.

(** ** The order of the images *)

Lemma insert_by_key_perm {A} (k : Z) (x : A) (xs : list (Z * A)) :
  insert_by_key k x xs ≡ₚ (k, x) :: xs.
Proof.
  induction xs as [|[k' y] xs IH]; simpl; [done|].
  destruct (k <=? k'); [done|]. rewrite IH. apply Permutation_swap.
Qed.

Lemma sort_by_key_perm {A} (xs : list (Z * A)) : sort_by_key xs ≡ₚ xs.
Proof.
  induction xs as [|[k x] xs IH]; simpl; [done|].
  unfold sort_by_key in *. simpl. by rewrite insert_by_key_perm, IH.
Qed.

Lemma insert_by_key_sorted {A} (k : Z) (x : A) (xs : list (Z * A)) :
  Sorted Z.le xs.*1 → Sorted Z.le (insert_by_key k x xs).*1.
Proof.
  induction xs as [|[k' y] xs IH]; simpl; intros Hs.
  - by repeat constructor.
  - destruct (Z.leb_spec k k') as [Hle|Hgt]; simpl.
    + constructor; [done|]. by constructor.
    + apply Sorted_inv in Hs as [Hs Hhd]. constructor; [by apply IH|].
      destruct xs as [|[k'' z] xs]; simpl in *.
      * constructor. lia.
      * destruct (Z.leb_spec k k''); simpl; constructor; [lia|].
        by apply HdRel_inv in Hhd.
Qed.

Lemma sort_by_key_sorted {A} (xs : list (Z * A)) :
  Sorted Z.le (sort_by_key xs).*1.
Proof.
  induction xs as [|[k x] xs IH]; [constructor|].
  unfold sort_by_key in *. simpl. by apply insert_by_key_sorted.
Qed.

Lemma mapM_keyed_spec (paths : list string) keyed :
  mapM (fun x => (fun k => (k, x)) <$> file_number x) paths = Some keyed →
  keyed.*2 = paths ∧ Forall (fun kx => file_number kx.2 = Some kx.1) keyed.
Proof.
  rewrite mapM_Some. induction 1 as [|x [k y] xs ks Hx _ [IH1 IH2]]; [done|].
  destruct (file_number x) as [k0|] eqn:Hf; simpl in Hx; [|done].
  injection Hx as <- <-. split; [csimpl; by f_equal|].
  constructor; [done|exact IH2].
Qed.

(** X18: when every image file name of a spec is a number, the iteration
    registers for the spec's id the images read from those files in
    ascending order of their numbers (so [2.png] comes before [10.png]):
    the paths read are a rearrangement of what [glob] found, and their
    numbers never decrease. *)
Theorem loadcustom_item_orders_images self item :
  is_Some (mapM file_number (glob_glob (os_path_join (imgpath item) img_pattern))) →
  ∃ keyed : list (Z * string),
    custom_img_cycle (load_item self item).1 !! audiotype item
      = Some (read_imgs cv2_imread keyed.*2) ∧
    keyed.*2 ≡ₚ glob_glob (os_path_join (imgpath item) img_pattern) ∧
    Forall (fun kx => file_number kx.2 = Some kx.1) keyed ∧
    Sorted Z.le keyed.*1.
Proof.
  intros Hnum. apply mapM_keyed_file_number in Hnum as [keyed Hkeyed].
  destruct (mapM_keyed_spec _ _ Hkeyed) as [Hpaths Hkeys].
  exists (sort_by_key keyed). split; [|split; [|split]].
  - unfold loadcustom_item. rewrite Hkeyed.
    destruct (sf_read (audiopath item)) as [[audio rate]|]; simpl;
      by rewrite lookup_insert_eq.
  - rewrite <- Hpaths. by rewrite sort_by_key_perm.
  - by rewrite sort_by_key_perm.
  - apply sort_by_key_sorted.
Qed.

(** ** What the loader prints *)

Lemma loadcustom_item_log self item :
  (load_item self item).2
  = [LogLoading item;
     if loads item
     then LogLoaded
            (length (glob_glob (os_path_join (imgpath item) img_pattern)))
            (audiotype item)
     else LogError (audiotype item)].
Proof.
  unfold loadcustom_item, item_loads.
  pose proof (mapM_keyed_file_number file_number
    (glob_glob (os_path_join (imgpath item) img_pattern))) as Hk.
  destruct (mapM (fun x => _) _) as [keyed|] eqn:Hkeyed.
  - destruct (mapM file_number _) as [ks|] eqn:Hks;
      [|destruct Hk as [Hk _]; by destruct Hk].
    destruct (sf_read (audiopath item)) as [[audio rate]|]; simpl; [|done].
    do 2 f_equal. f_equal. rewrite length_fmap.
    rewrite (Permutation_length (sort_by_key_perm keyed)).
    destruct (mapM_keyed_spec _ _ Hkeyed) as [<- _]. by rewrite length_fmap.
  - destruct (mapM file_number _) as [ks|] eqn:Hks;
      [destruct Hk as [_ Hk]; by destruct Hk|done].
Qed.

(** X19: the print statements of the loader itself (what [read_imgs] prints
    is not part of the log) give two lines for each spec, in the order of
    the specs: the spec being loaded, then either the number of image files
    found together with the id, or an error line with the id when the spec
    did not load. *)
Theorem loadcustom_log_shape items : ∀ self,
  (load_items items self).2
  = concat ((fun item =>
      [LogLoading item;
       if loads item
       then LogLoaded
              (length (glob_glob (os_path_join (imgpath item) img_pattern)))
              (audiotype item)
       else LogError (audiotype item)]) <$> items).
Proof.
  induction items as [|item items IH]; intros self; [done|].
  cbn [loadcustom_items]. pose proof (loadcustom_item_log self item) as Hlog.
  destruct (load_item self item) as [self1 out1]. specialize (IH self1).
  destruct (load_items items self1) as [self2 out2]. simpl in *.
  by rewrite Hlog, IH.
Qed.

(** ** The object a construction returns *)

Lemma loadcustom_item_config self item :
  opt (load_item self item).1 = opt self ∧
  sample_rate (load_item self item).1 = sample_rate self ∧
  chunk (load_item self item).1 = chunk self ∧
  tts_of (load_item self item).1 = tts_of self ∧
  curr_state (load_item self item).1 = curr_state self.
Proof.
  unfold loadcustom_item. destruct (mapM _ _); [|done].
  by destruct (sf_read (audiopath item)) as [[audio rate]|].
Qed.

Lemma loadcustom_items_config items : ∀ self,
  opt (load_items items self).1 = opt self ∧
  sample_rate (load_items items self).1 = sample_rate self ∧
  chunk (load_items items self).1 = chunk self ∧
  tts_of (load_items items self).1 = tts_of self ∧
  curr_state (load_items items self).1 = curr_state self.
Proof.
  induction items as [|item items IH]; intros self; [done|].
  cbn [loadcustom_items]. pose proof (loadcustom_item_config self item) as H1.
  destruct (load_item self item) as [self1 out1]. specialize (IH self1).
  destruct (load_items items self1) as [self2 out2]. simpl in *.
  destruct H1 as (E1&E2&E3&E4&E5). destruct IH as (F1&F2&F3&F4&F5).
  repeat split; congruence.
Qed.

Lemma BaseReal_init_config (o : Opt) p out :
  init o = Ok (p, out) →
  fps o ≠ 0 ∧ opt p = o ∧ sample_rate p = 16000 ∧ chunk p = 16000 / fps o ∧
  curr_state p = 0 ∧ select_tts o = Ok (tts_of p).
Proof.
  unfold BaseReal_init, floordiv.
  destruct (Z.eqb_spec (fps o) 0) as [|Hfps]; [done|]. simpl.
  destruct (select_tts o) as [engine| |]; simpl; [|done..].
  unfold loadcustom. simpl. intros [= Hload].
  pose proof (loadcustom_items_config (customopt o)
    {| opt := o; sample_rate := 16000; chunk := 16000 / fps o; tts_of := engine;
       curr_state := 0; custom_img_cycle := ∅; custom_audio_cycle := ∅;
       custom_audio_index := ∅; custom_index := ∅; custom_opt := ∅ |}) as Hc.
  rewrite Hload in Hc. simpl in Hc. destruct Hc as (E1&E2&E3&E4&E5).
  repeat split; congruence.
Qed.


Lemma loadcustom_item_audio self item :
  loads item = true →
  ∃ audio rate,
    sf_read (audiopath item) = Some (audio, rate) ∧
    custom_audio_cycle (load_item self item).1
    = <[audiotype item := audio]> (custom_audio_cycle self).
Proof.
  unfold item_loads, loadcustom_item.
  pose proof (mapM_keyed_file_number file_number
    (glob_glob (os_path_join (imgpath item) img_pattern))) as Hk.
  destruct (mapM file_number _) as [ks|]; [|done].
  destruct (mapM (fun x => _) _) as [keyed|];
    [|destruct Hk as [_ Hk]; by destruct Hk].
  destruct (sf_read (audiopath item)) as [[audio rate]|]; [|done].
  intros _. by exists audio, rate.
Qed.

Lemma loadcustom_item_consistent items0 self item :
  item ∈ items0 →
  loaded_consistent glob_glob file_number sf_read items0 self →
  loaded_consistent glob_glob file_number sf_read items0 (load_item self item).1.
Proof.
  intros Hin (Hd1 & Hd2 & Hd3 & Hsub & Hz1 & Hz2 & Hopt).
  destruct (loadcustom_item_cases glob_glob file_number cv2_imread sf_read self item)
    as [(Hl & (imgs & audio0 & Him & _) & Hai & Hci & Hop)
       |(_ & _ & Him & Hau & Hai & Hci & Hop)].
  - destruct (loadcustom_item_audio self item Hl) as (audio & rate & Hsf & Hau).
    unfold loaded_consistent. rewrite Him, Hau, Hai, Hci, Hop.
    rewrite !dom_insert_L, Hd1, Hd2, Hd3.
    split; [done|]. split; [done|]. split; [done|].
    split; [by apply union_mono_l|].
    split; [|split].
    + intros id idx. rewrite lookup_insert. case_decide; [by intros [= <-]|apply Hz1].
    + intros id idx. rewrite lookup_insert. case_decide; [by intros [= <-]|apply Hz2].
    + intros id item0. rewrite lookup_insert. case_decide as Hid.
      * intros [= <-]. subst id. split; [done|]. split; [done|]. split; [done|].
        exists audio, rate. by rewrite lookup_insert_eq.
      * intros Hlk. destruct (Hopt id item0 Hlk) as (?&?&?&audio1&rate1&?&?).
        split; [done|]. split; [done|]. split; [done|].
        exists audio1, rate1. by rewrite lookup_insert_ne.
  - unfold loaded_consistent. rewrite Hau, Hai, Hci, Hop.
    do 3 (split; [done|]). split; [|done].
    destruct Him as [->|[imgs ->]]; [done|]. rewrite dom_insert_L.
    by apply union_subseteq_r'.
Qed.

Lemma loadcustom_items_consistent items0 items : ∀ self,
  items ⊆ items0 →
  loaded_consistent glob_glob file_number sf_read items0 self →
  loaded_consistent glob_glob file_number sf_read items0 (load_items items self).1.
Proof.
  induction items as [|item items IH]; intros self Hsub Hinv; [done|].
  cbn [loadcustom_items].
  pose proof (loadcustom_item_consistent items0 self item) as H1.
  destruct (load_item self item) as [self1 out1]. specialize (IH self1).
  destruct (load_items items self1) as [self2 out2]. simpl in *.
  apply IH.
  - intros x Hx. apply Hsub. by apply list_elem_of_further.
  - apply H1; [|done]. apply Hsub. apply list_elem_of_here.
Qed.

(** X21: in a freshly constructed [BaseReal] the dictionaries agree: the
    sources with an audio clip are exactly those with an audio cursor, with
    an image cursor and with options, each of them has an image list, all
    cursors are zero, and the options kept under an id are a spec of
    [customopt] with that id whose audio file holds the clip kept under
    the id. *)
Theorem BaseReal_init_consistent (o : Opt) p out :
  init o = Ok (p, out) →
  loaded_consistent glob_glob file_number sf_read (customopt o) p.
Proof.
  intros Hinit. pose proof Hinit as Hcfg. apply BaseReal_init_config in Hcfg.
  revert Hinit. unfold BaseReal_init, floordiv.
  destruct (fps o =? 0); [done|]. simpl.
  destruct (select_tts o) as [engine| |]; simpl; [|done..].
  unfold loadcustom. simpl. intros [= Hload].
  pose proof (loadcustom_items_consistent (customopt o) (customopt o)
    {| opt := o; sample_rate := 16000; chunk := 16000 / fps o; tts_of := engine;
       curr_state := 0; custom_img_cycle := ∅; custom_audio_cycle := ∅;
       custom_audio_index := ∅; custom_index := ∅; custom_opt := ∅ |}) as Hinv.
  rewrite Hload in Hinv. apply Hinv; [done|].
  unfold loaded_consistent. simpl. rewrite !dom_empty_L.
  repeat split; try done; intros ? ?; by rewrite lookup_empty.
Qed.

(** ** Specs that share an id *)

Lemma loadcustom_items_app items1 items2 : ∀ self,
  (load_items (items1 ++ items2) self).1
  = (load_items items2 (load_items items1 self).1).1.
Proof.
  induction items1 as [|item items1 IH]; intros self; simpl.
  - by destruct (load_items items2 self).
  - destruct (load_item self item) as [self1 out1]. specialize (IH self1).
    destruct (load_items (items1 ++ items2) self1) as [self2 out2].
    destruct (load_items items1 self1) as [self3 out3]. simpl in *.
    by rewrite IH.
Qed.

(** X25: when several specs carry the same id, the last one that loads is
    the one registered: its options and the clip read from its audio file
    are what the dictionaries hold for the id after the call. *)
Theorem loadcustom_last_loaded_spec_wins (before after : list custom_item)
    item self :
  loads item = true →
  (∀ item', item' ∈ after → audiotype item' = audiotype item →
            loads item' = false) →
  ∃ audio rate,
    sf_read (audiopath item) = Some (audio, rate) ∧
    custom_audio_cycle (load_items (before ++ item :: after) self).1
      !! audiotype item = Some audio ∧
    custom_opt (load_items (before ++ item :: after) self).1
      !! audiotype item = Some item ∧
    custom_audio_index (load_items (before ++ item :: after) self).1
      !! audiotype item = Some 0 ∧
    custom_index (load_items (before ++ item :: after) self).1
      !! audiotype item = Some 0.
Proof.
  intros Hl Hafter. rewrite loadcustom_items_app.
  set (self0 := (load_items before self).1).
  change (item :: after) with ([item] ++ after). rewrite loadcustom_items_app.
  assert (H1 : (load_items [item] self0).1 = (load_item self0 item).1).
  { simpl. by destruct (load_item self0 item). }
  rewrite H1.
  destruct (loadcustom_item_audio self0 item Hl) as (audio & rate & Hsf & Hau).
  destruct (loadcustom_item_cases glob_glob file_number cv2_imread sf_read self0 item)
    as [(_ & _ & Hai & Hci & Hop)|[Hf _]]; [|congruence].
  destruct (loadcustom_items_same_entries glob_glob file_number cv2_imread sf_read
              (audiotype item) after (load_item self0 item).1 Hafter)
    as (Ea & Eb & Ec & Ed).
  exists audio, rate. split; [done|].
  rewrite Ea, Eb, Ec, Ed, Hau, Hai, Hci, Hop, !lookup_insert_eq. done.
Qed.

End MoreLoader.

Section Startup.
Context {sample image feat : Type}.
Variable silence : sample.
Variable glob_glob : string → list string.
Variable file_number : string → option Z.
Variable cv2_imread : string → option image.
Variable sf_read : string → option (list sample * Z).
#[local] Abbreviation real := (BaseReal sample image).
#[local] Abbreviation asr := (BaseASR sample image feat).
#[local] Abbreviation init := (BaseReal_init glob_glob file_number cv2_imread sf_read).

(** ** From construction to the first window *)

(** X23: a [BaseReal] and a [BaseASR] built from the same options, with a
    positive [fps] and strides that are not negative, share the chunk length
    [16000 // fps], and the first [warm_up] returns: nothing is queued and
    nothing is played yet, so it buffers [l + r] chunks of zeros and leaves
    [r] pairs of such a chunk and the Silence tag in the output channel,
    without touching the parent. *)
Theorem fresh_system_warms_up_in_silence (o : Opt) (p : real) out :
  init o = Ok (p, out) →
  0 < fps o → 0 ≤ l o → 0 ≤ r o →
  let zeros := replicate (Z.to_nat (16000 / fps o)) silence in
  ∃ s s' : asr,
    BaseASR_init o (Some p) = Ok s ∧
    asr_chunk s = chunk p ∧
    warm_up silence s = Ok s' ∧
    frames s' = replicate (Z.to_nat (l o + r o)) zeros ∧
    output_queue s' = replicate (Z.to_nat (r o)) (zeros, 1) ∧
    queue s' = [] ∧
    parent s' = Some p.
Proof.
  intros Hinit Hfps Hl Hr zeros.
  destruct (BaseReal_init_config glob_glob file_number cv2_imread sf_read o p out Hinit)
    as (_ & _ & _ & Hchunk & Hcur & _).
  unfold BaseASR_init, floordiv. destruct (Z.eqb_spec (fps o) 0); [lia|]. simpl.
  eexists _, _. split; [done|]. simpl. split; [done|].
  match goal with |- warm_up _ ?s0 = _ ∧ _ => set (s := s0) end.
  assert (Hidle : get_audio_frame_n silence (Z.to_nat (l o + r o)) s
                  = Ok (replicate (Z.to_nat (l o + r o)) (zeros, 1), s)).
  { apply (get_audio_frame_n_idle silence (Z.to_nat (l o + r o)) s); [done| |].
    - simpl. apply Z.div_pos; lia.
    - right. exists p. split; [done|lia]. }
  pose proof (warm_up_fill_eval silence _ s _ s [] [] Hidle) as Hfill.
  change (with_buffers [] [] s) with s in Hfill.
  unfold warm_up. change (stride_left_size s) with (l o).
  change (stride_right_size s) with (r o). rewrite Hfill. simpl.
  rewrite warm_up_drain_eval; last first.
  { simpl. rewrite length_replicate. lia. }
  split; [done|]. simpl. rewrite fmap_replicate, drop_replicate.
  split; [done|]. split; [|done]. f_equal. lia.
Qed.

End Startup.

(** * Instances of the further properties *)

Lemma get_audio_frame_moves_only_current_cursor_witness :
  ∃ x s' p',
    get_audio_frame 0 demo_asr = Ok (x, s') ∧ parent s' = Some p' ∧
    custom_index p' = custom_index demo_real.
Proof.
  assert (H : ∃ x s', get_audio_frame 0 demo_asr = Ok (x, s'))
    by (eexists _, _; reflexivity).
  destruct H as (x & s' & H).
  destruct (get_audio_frame_moves_only_current_cursor 0 demo_asr demo_real x s')
    as (_ & _ & _ & p' & Hp' & Hci & _).
  - reflexivity.
  - exact H.
  - by exists x, s', p'.
Defined.

Lemma idle_frames_are_silence_witness :
  get_audio_frame_n 0 3 demo_asr_idle
  = Ok ([([0; 0], 1); ([0; 0], 1); ([0; 0], 1)], demo_asr_idle).
Proof.
  apply (idle_frames_are_silence 0 3 demo_asr_idle).
  - reflexivity.
  - simpl. lia.
  - right. exists demo_real_paused. split; [reflexivity|]. simpl. lia.
Defined.

Lemma restart_plays_from_the_start_witness :
  ∃ p',
    get_audio_frame 0 (with_parent (Some (set_curr_state 2 true demo_real_paused))
                         demo_asr_idle)
    = Ok (([11; 12], 2), with_parent (Some p') demo_asr_idle) ∧
    custom_audio_index p' !! 2 = Some 2.
Proof.
  destruct (restart_plays_from_the_start 0 demo_asr_idle demo_real_paused 2
              [11; 12; 13; 14; 15]) as (p' & Hget & Hidx & _).
  - reflexivity.
  - reflexivity.
  - lia.
  - simpl. lia.
  - reflexivity.
  - exists p'. split; [exact Hget|exact Hidx].
Defined.

Lemma pause_talk_interrupts_witness :
  ∃ pulled s',
    get_audio_frame_n 0 2 (pause_talk (put_audio_frame [7; 8] demo_asr))
      = Ok (pulled, s') ∧
    Forall (fun x => 1 ≤ x.2) pulled ∧ queue s' = [].
Proof.
  assert (H : ∃ pulled s',
            get_audio_frame_n 0 2 (pause_talk (put_audio_frame [7; 8] demo_asr))
            = Ok (pulled, s')) by (eexists _, _; vm_compute; reflexivity).
  destruct H as (pulled & s' & H). exists pulled, s'. split; [exact H|].
  destruct (pause_talk_interrupts 0 2 _ pulled s' H) as (Hall & Hq & _).
  by split.
Defined.

Lemma run_keeps_clips_and_timing_witness :
  ∃ s', run 0 demo_session demo_asr = Ok s' ∧ same_setup demo_asr s'.
Proof.
  assert (H : ∃ s', run 0 demo_session demo_asr = Ok s')
    by (eexists; vm_compute; reflexivity).
  destruct H as (s' & H). exists s'. split; [exact H|].
  exact (run_keeps_clips_and_timing 0 demo_session demo_asr s' H).
Defined.

Lemma warm_up_blocks_on_short_channel_witness :
  warm_up 0 demo_asr_short = Hang.
Proof.
  apply (warm_up_blocks_on_short_channel 0 demo_asr_short).
  - split; [simpl; lia|]. intros p [= <-] _. split; eexists; reflexivity.
  - simpl. lia.
Defined.

Lemma reset_allows_full_replay_witness :
  ∃ chunks p',
    get_audio_stream_n 3 2 (init_customindex demo_real_paused) = Ok (chunks, p') ∧
    concat chunks = [11; 12; 13; 14; 15] ∧ curr_state p' = 1.
Proof.
  destruct (reset_allows_full_replay 2 demo_real_paused 4 [11; 12; 13; 14; 15])
    as (chunks & p' & Hrun & Hcat & Hst & _).
  - simpl. lia.
  - simpl. lia.
  - reflexivity.
  - reflexivity.
  - by exists chunks, p'.
Defined.

Lemma zero_chunk_never_advances_witness :
  get_audio_stream_n 4 2 demo_real_zero = Ok ([[]; []; []; []], demo_real_zero).
Proof.
  apply (zero_chunk_never_advances 4 2 demo_real_zero 1 [11; 12; 13; 14; 15]).
  - reflexivity.
  - reflexivity.
  - reflexivity.
  - simpl. lia.
Defined.

Lemma loadcustom_item_orders_images_witness :
  ∃ keyed : list (Z * string),
    custom_img_cycle
      (loadcustom_item demo_glob demo_file_number demo_imread demo_sf_read
         demo_unloaded item_ok).1 !! 2
      = Some (read_imgs demo_imread keyed.*2) ∧
    Sorted Z.le keyed.*1.
Proof.
  destruct (loadcustom_item_orders_images demo_glob demo_file_number demo_imread
              demo_sf_read demo_unloaded item_ok) as (keyed & Himg & _ & _ & Hs).
  - vm_compute. eexists. reflexivity.
  - by exists keyed.
Defined.

Lemma BaseReal_init_consistent_witness :
  ∃ p out,
    demo_init = Ok (p, out) ∧
    dom (custom_audio_index p) = dom (custom_audio_cycle p) ∧
    ∀ id idx, custom_audio_index p !! id = Some idx → idx = 0.
Proof.
  assert (H : ∃ p out, demo_init = Ok (p, out))
    by (eexists _, _; vm_compute; reflexivity).
  destruct H as (p & out & H). exists p, out. split; [exact H|].
  destruct (BaseReal_init_consistent demo_glob demo_file_number demo_imread
              demo_sf_read demo_load_opt p out H) as (Hd & _ & _ & _ & Hz & _).
  by split.
Defined.

Lemma fresh_system_warms_up_in_silence_witness :
  ∃ p out (s s' : BaseASR Z Z Z),
    demo_init = Ok (p, out) ∧
    BaseASR_init demo_load_opt (Some p) = Ok s ∧
    warm_up 0 s = Ok s' ∧
    length (frames s') = 20%nat ∧ length (output_queue s') = 10%nat.
Proof.
  assert (H : ∃ p out, demo_init = Ok (p, out))
    by (eexists _, _; vm_compute; reflexivity).
  destruct H as (p & out & H).
  destruct (fresh_system_warms_up_in_silence (feat:=Z) 0 demo_glob demo_file_number
              demo_imread demo_sf_read demo_load_opt p out H)
    as (s & s' & Hs & _ & Hw & Hf & Ho & _).
  - simpl. lia.
  - simpl. lia.
  - simpl. lia.
  - exists p, out, s, s'. split; [exact H|]. split; [exact Hs|].
    split; [exact Hw|]. rewrite Hf, Ho, !length_replicate. by split.
Defined.

Lemma warm_up_takes_queued_chunks_witness :
  ∃ s',
    warm_up 0 (put_audio_frames [[1; 2]; [3; 4]; [5; 6]; [7; 8]] demo_asr) = Ok s' ∧
    frames s' = [[1; 2]; [3; 4]; [5; 6]] ∧
    output_queue s' = [([5; 6], 0)] ∧
    queue s' = [[7; 8]].
Proof.
  destruct (warm_up_takes_queued_chunks 0
              (put_audio_frames [[1; 2]; [3; 4]; [5; 6]; [7; 8]] demo_asr)
              [[1; 2]; [3; 4]; [5; 6]] [[7; 8]])
    as (s' & Hw & Hf & Ho & Hq & _).
  - simpl. lia.
  - simpl. lia.
  - reflexivity.
  - simpl. lia.
  - exists s'. split; [exact Hw|]. split; [exact Hf|]. split; [exact Ho|exact Hq].
Defined.

Lemma loadcustom_last_loaded_spec_wins_witness :
  ∃ audio rate,
    demo_sf_read (audiopath item_ok) = Some (audio, rate) ∧
    custom_audio_cycle
      (loadcustom_items demo_glob demo_file_number demo_imread demo_sf_read
         ([item_missing_dir] ++ item_ok :: [item_bad_audio]) demo_unloaded).1
      !! 2 = Some audio.
Proof.
  destruct (loadcustom_last_loaded_spec_wins demo_glob demo_file_number demo_imread
              demo_sf_read [item_missing_dir] [item_bad_audio] item_ok demo_unloaded)
    as (audio & rate & Hsf & Hau & _).
  - reflexivity.
  - intros item' Hin Hid.
    apply elem_of_cons in Hin as [->|Hin]; [reflexivity|].
    by apply elem_of_nil in Hin.
  - by exists audio, rate.
Defined.
